(** * JobReady: the application-form flow and the bilingual content toggle

  A shallow embedding of [src/script.js]: the validation and submission
  logic of [JobReadyApp] and the content rewrite of [LanguageManager],
  followed by the properties of the design write-up that concern them. *)

From Stdlib Require Import NArith String Ascii.
From Stdlib Require QArith.
From stdpp Require Import base option list gmap.

Local Open Scope N_scope.

(** ** JavaScript strings

  A JavaScript string is a sequence of UTF-16 code units; regular
  expressions without the [u] flag and [String.prototype.trim] work on
  code units, so a string is a list of numbers below 65536. *)

Module Js.

Abbreviation jsstring := (list N).

(** An ASCII literal of the source as code units. *)
Definition lit (s : string) : jsstring :=
  map N_of_ascii (list_ascii_of_string s).
Arguments lit : simpl never.

(** WhiteSpace and LineTerminator code points of ECMAScript: the set
    removed by [trim] and matched by the class escape [\s]. *)
Definition isWhiteSpace (c : N) : bool :=
  (c =? 0x09) || (c =? 0x0A) || (c =? 0x0B) || (c =? 0x0C) || (c =? 0x0D)
  || (c =? 0x20) || (c =? 0xA0) || (c =? 0x1680)
  || ((0x2000 <=? c) && (c <=? 0x200A))
  || (c =? 0x2028) || (c =? 0x2029) || (c =? 0x202F) || (c =? 0x205F)
  || (c =? 0x3000) || (c =? 0xFEFF).

(** The class escape [\d]: the ten ASCII digits. *)
Definition isDigit (c : N) : bool := (0x30 <=? c) && (c <=? 0x39).

Fixpoint trimStart (s : jsstring) : jsstring :=
  match s with
  | [] => []
  | c :: s' => if isWhiteSpace c then trimStart s' else s
  end.

Definition trimEnd (s : jsstring) : jsstring := rev (trimStart (rev s)).

(** [String.prototype.trim]. *)
Definition trim (s : jsstring) : jsstring := trimEnd (trimStart s).

(** Truthiness of a string: the empty string is the only falsy one. *)
Definition truthy (s : jsstring) : bool :=
  match s with [] => false | _ :: _ => true end.

(** [a === b] on strings. *)
Definition strictEq (a b : jsstring) : bool := bool_decide (a = b).

Fixpoint startsWith (p s : jsstring) : bool :=
  match p, s with
  | [], _ => true
  | _ :: _, [] => false
  | a :: p', b :: s' => (a =? b) && startsWith p' s'
  end.

(** [s.includes(p)]. *)
Fixpoint includes (p s : jsstring) : bool :=
  startsWith p s ||
  match s with
  | [] => false
  | _ :: s' => includes p s'
  end.

(** [s.replace(p, r)] for a string pattern [p] and a replacement [r]
    without [$]: the first occurrence of [p] is replaced. *)
Fixpoint replace (p r s : jsstring) : jsstring :=
  if startsWith p s then r ++ drop (length p) s
  else match s with
       | [] => []
       | c :: s' => c :: replace p r s'
       end.

(** [parts.join(sep)]. *)
Fixpoint join (sep : jsstring) (parts : list jsstring) : jsstring :=
  match parts with
  | [] => []
  | [p] => p
  | p :: rest => p ++ sep ++ join sep rest
  end.

End Js.

(** ** Regular expressions

  The two patterns of [validateField] are anchored at both ends and use
  only classes, concatenation and repetition, so [test] decides
  membership of the whole string in the pattern's language.  The
  matcher works by derivatives. *)

Module Regex.
Import Js.

Inductive regex : Type :=
| Void
| Eps
| Class (p : N -> bool)
| Cat (r1 r2 : regex)
| Alt (r1 r2 : regex)
| Star (r : regex).

(** [r+] *)
Definition plus (r : regex) : regex := Cat r (Star r).

(** [r{n}] *)
Fixpoint times (n : nat) (r : regex) : regex :=
  match n with
  | O => Eps
  | S n' => Cat r (times n' r)
  end.

Fixpoint nullable (r : regex) : bool :=
  match r with
  | Void => false
  | Eps => true
  | Class _ => false
  | Cat r1 r2 => nullable r1 && nullable r2
  | Alt r1 r2 => nullable r1 || nullable r2
  | Star _ => true
  end.

Fixpoint deriv (c : N) (r : regex) : regex :=
  match r with
  | Void => Void
  | Eps => Void
  | Class p => if p c then Eps else Void
  | Cat r1 r2 =>
      if nullable r1 then Alt (Cat (deriv c r1) r2) (deriv c r2)
      else Cat (deriv c r1) r2
  | Alt r1 r2 => Alt (deriv c r1) (deriv c r2)
  | Star r1 => Cat (deriv c r1) (Star r1)
  end.

(** [/^r$/.test(s)] *)
Fixpoint test (r : regex) (s : jsstring) : bool :=
  match s with
  | [] => nullable r
  | c :: s' => test (deriv c r) s'
  end.

(** The language of a pattern. *)
Inductive Matches : regex -> jsstring -> Prop :=
| MEps : Matches Eps []
| MClass p c : p c = true -> Matches (Class p) [c]
| MCat r1 r2 s1 s2 :
    Matches r1 s1 -> Matches r2 s2 -> Matches (Cat r1 r2) (s1 ++ s2)
| MAltL r1 r2 s : Matches r1 s -> Matches (Alt r1 r2) s
| MAltR r1 r2 s : Matches r2 s -> Matches (Alt r1 r2) s
| MStarNil r : Matches (Star r) []
| MStarCons r s1 s2 :
    Matches r s1 -> Matches (Star r) s2 -> Matches (Star r) (s1 ++ s2).

(** [[^\s@]] *)
Definition notSpaceNorAt (c : N) : bool :=
  negb (isWhiteSpace c) && negb (c =? 0x40).

(** [[6-9]] *)
Definition sixToNine (c : N) : bool := (0x36 <=? c) && (c <=? 0x39).

(** [/^[^\s@]+@[^\s@]+\.[^\s@]+$/] *)
Definition emailPattern : regex :=
  Cat (plus (Class notSpaceNorAt))
    (Cat (Class (N.eqb 0x40))
       (Cat (plus (Class notSpaceNorAt))
          (Cat (Class (N.eqb 0x2E))
             (plus (Class notSpaceNorAt))))).

(** [/^[6-9]\d{9}$/] *)
Definition phonePattern : regex :=
  Cat (Class sixToNine) (times 9 (Class isDigit)).

End Regex.

(** ** The application form flow ([JobReadyApp]) *)

Module Form.
Import Js Regex.

(** A control of the application form.  [required] is
    [hasAttribute('required')]; [defaultValue] is what [form.reset()]
    restores; [parentElement] identifies the element that carries the
    control's visual markers. *)
Record Field : Type := mkField {
  name : jsstring;
  value : jsstring;
  defaultValue : jsstring;
  required : bool;
  parentElement : nat
}.

(** What an element created by the controller displays. *)
Inductive Panel : Type :=
| NotificationPanel (type title message : jsstring)
| LoaderPanel (message : jsstring).

(** An element created with [document.createElement]. *)
Record Element : Type := mkElement {
  uid : nat;
  classList : list jsstring;
  panel : Panel
}.

(** Scheduled continuations: the closures handed to [setTimeout] and
    [requestAnimationFrame], and the rest of [submitApplication] after
    its [await]. *)
Inductive Callback : Type :=
| AddShow (el : nat)
| AutoClose (notification : nat)
| Detach (el : nat)
| AfterDelay (loader : nat)
| ModalActivate
| ModalFocusFirst
| ModalHide.

(** The element with id [applicationModal]. *)
Record Modal : Type := mkModal {
  display : jsstring;
  modalClass : list jsstring;
  hasInput : bool;
  containsForm : bool
}.

(** The part of the document, of the realm and of the event loop the
    controller reads and writes.

    [fields] are the form's [input], [textarea] and [select] controls.
    The form element exposes each listed element as a property under
    its name and under its id, and such a property shadows the form's
    own methods: [exposed] holds the names and ids under which it does
    so besides the names of [fields] (ids of the controls, names and
    ids of buttons, fieldsets, outputs, objects and images, and the
    names the form remembers from before an element was renamed).

    [inherited] is [Object.prototype] as an object literal sees it: for
    a property name, the text a template literal renders for the
    (truthy) member of that name every object inherits, if there is
    one. *)
Record App : Type := mkApp {
  fields : list Field;
  formElements : list nat;
  classes : gmap nat (list jsstring);
  body : list Element;
  timers : list (N * Callback);
  frames : list Callback;
  nextId : nat;
  modal : option Modal;
  bodyOverflow : jsstring;
  exposed : list jsstring;
  inherited : jsstring -> option jsstring
}.

Definition setFields (v : list Field) (st : App) : App :=
  mkApp v (formElements st) (classes st) (body st) (timers st) (frames st)
    (nextId st) (modal st) (bodyOverflow st) (exposed st) (inherited st).
Definition setClasses (v : gmap nat (list jsstring)) (st : App) : App :=
  mkApp (fields st) (formElements st) v (body st) (timers st) (frames st)
    (nextId st) (modal st) (bodyOverflow st) (exposed st) (inherited st).
Definition setBody (v : list Element) (st : App) : App :=
  mkApp (fields st) (formElements st) (classes st) v (timers st) (frames st)
    (nextId st) (modal st) (bodyOverflow st) (exposed st) (inherited st).
Definition setTimers (v : list (N * Callback)) (st : App) : App :=
  mkApp (fields st) (formElements st) (classes st) (body st) v (frames st)
    (nextId st) (modal st) (bodyOverflow st) (exposed st) (inherited st).
Definition setFrames (v : list Callback) (st : App) : App :=
  mkApp (fields st) (formElements st) (classes st) (body st) (timers st) v
    (nextId st) (modal st) (bodyOverflow st) (exposed st) (inherited st).
Definition setNextId (v : nat) (st : App) : App :=
  mkApp (fields st) (formElements st) (classes st) (body st) (timers st)
    (frames st) v (modal st) (bodyOverflow st) (exposed st) (inherited st).
Definition setModal (v : option Modal) (st : App) : App :=
  mkApp (fields st) (formElements st) (classes st) (body st) (timers st)
    (frames st) (nextId st) v (bodyOverflow st) (exposed st) (inherited st).
Definition setBodyOverflow (v : jsstring) (st : App) : App :=
  mkApp (fields st) (formElements st) (classes st) (body st) (timers st)
    (frames st) (nextId st) (modal st) v (exposed st) (inherited st).

(** [name in form] for a property [name] of the form's prototype chain:
    true when a listed element of that name or id shadows it, so that
    [form.name] is that element and calling it throws a [TypeError]. *)
Definition exposes (word : jsstring) (st : App) : bool :=
  bool_decide (word ∈ map name (fields st) ++ exposed st).

Inductive Error : Type := TypeError.

(** How a call ends: with a value, or with an exception that
    propagates to the caller. *)
Inductive Completion (A : Type) : Type :=
| Normal (a : A)
| Throw (e : Error).
Arguments Normal {A} a.
Arguments Throw {A} e.

(** *** A state monad for the handlers *)

Definition M (A : Type) : Type := App -> A * App.

Definition ret {A} (a : A) : M A := fun st => (a, st).
Definition bind {A B} (m : M A) (k : A -> M B) : M B :=
  fun st => let (a, st') := m st in k a st'.
Definition gets {A} (f : App -> A) : M A := fun st => (f st, st).
Definition modify (f : App -> App) : M unit := fun st => (tt, f st).

Notation "'let*' x ':=' m 'in' k" := (bind m (fun x => k))
  (at level 10, x name, m at level 100, k at level 200).
Notation "m '>>' k" := (bind m (fun _ => k))
  (at level 100, k at level 200, right associativity).

(** [xs.forEach(...)] threading an accumulator through the loop. *)
Fixpoint forEach {A B} (xs : list A) (f : A -> B -> M B) (acc : B) : M B :=
  match xs with
  | [] => ret acc
  | x :: xs' => let* acc' := f x acc in forEach xs' f acc'
  end.

(** *** DOM primitives *)

(** [DOMTokenList.remove(...tokens)] and [DOMTokenList.add(token)]. *)
Definition tokensRemove (ts cl : list jsstring) : list jsstring :=
  filter (fun c => c ∉ ts) cl.
Definition tokensAdd (t : jsstring) (cl : list jsstring) : list jsstring :=
  if decide (t ∈ cl) then cl else cl ++ [t].

Definition classesOf (st : App) (el : nat) : list jsstring :=
  default [] (classes st !! el).

Definition classListRemove (el : nat) (ts : list jsstring) : M unit :=
  modify (fun st =>
    setClasses (<[el := tokensRemove ts (classesOf st el)]> (classes st)) st).
Definition classListAdd (el : nat) (t : jsstring) : M unit :=
  modify (fun st =>
    setClasses (<[el := tokensAdd t (classesOf st el)]> (classes st)) st).

Definition onElement (el : nat) (f : list jsstring -> list jsstring)
    (e : Element) : Element :=
  if decide (uid e = el) then mkElement (uid e) (f (classList e)) (panel e)
  else e.

Definition createElement (cl : list jsstring) (p : Panel) : M Element :=
  let* n := gets nextId in
  modify (setNextId (S n)) >>
  ret (mkElement n cl p).

Definition appendChild (e : Element) : M unit :=
  modify (fun st => setBody (body st ++ [e]) st).
Definition removeChild (el : nat) : M unit :=
  modify (fun st => setBody (filter (fun e => uid e ≠ el) (body st)) st).
(** [el.parentElement] is non-null for a created element exactly while
    it is a child of the body. *)
Definition attached (el : nat) (st : App) : bool :=
  bool_decide (el ∈ map uid (body st)).
Definition elementClassAdd (el : nat) (t : jsstring) : M unit :=
  modify (fun st => setBody (map (onElement el (tokensAdd t)) (body st)) st).
Definition elementClassRemove (el : nat) (t : jsstring) : M unit :=
  modify (fun st =>
    setBody (map (onElement el (tokensRemove [t])) (body st)) st).

Definition setTimeout (cb : Callback) (delay : N) : M unit :=
  modify (fun st => setTimers (timers st ++ [(delay, cb)]) st).
Definition requestAnimationFrame (cb : Callback) : M unit :=
  modify (fun st => setFrames (frames st ++ [cb]) st).

(** *** Validation *)

(** The decision taken by [validateField] between its two updates of
    the class list (the [if]/[else if]/[switch] of the source): the
    value of [isValid] when the function returns. *)
Definition isValidFor (isRequired : bool) (fieldName value : jsstring)
    : bool :=
  if isRequired && negb (truthy value) then false
  else if truthy value then
    if strictEq fieldName (lit "email") then test emailPattern value
    else if strictEq fieldName (lit "phone") then test phonePattern value
    else true
  else true.

Definition validateField (field : Field) : M bool :=
  let value := trim (value field) in
  let fieldName := name field in
  classListRemove (parentElement field) [lit "error"; lit "success"] >>
  let isValid := isValidFor (required field) fieldName value in
  (if truthy value
   then classListAdd (parentElement field)
          (if isValid then lit "success" else lit "error")
   else ret tt) >>
  ret isValid.

(** The object literal of [getFieldDisplayName], by own property. *)
Definition displayNames : gmap jsstring jsstring :=
  <[lit "firstName" := lit "First Name"]>
  (<[lit "lastName" := lit "Last Name"]>
  (<[lit "email" := lit "Email Address"]>
  (<[lit "phone" := lit "Phone Number"]>
  (<[lit "address" := lit "Address"]> ∅)))).

(** [displayNames[fieldName] || fieldName], as the template literal of
    [validateBusinessForm] renders it.  The property lookup finds the
    own properties of the literal first and then the members every
    object inherits from [Object.prototype] ([proto]); the identifier
    is the result only when neither has a truthy value. *)
Definition getFieldDisplayName (proto : jsstring -> option jsstring)
    (fieldName : jsstring) : jsstring :=
  match displayNames !! fieldName with
  | Some d => if truthy d then d else fieldName
  | None => default fieldName (proto fieldName)
  end.

(** [form.querySelectorAll('[required]')] *)
Definition requiredFields (st : App) : list Field :=
  filter (fun f => required f = true) (fields st).

(** The body of the [forEach] of [validateBusinessForm]; the accumulator
    holds [isValid] and [errors]. *)
Definition checkRequired (field : Field) (acc : bool * list jsstring)
    : M (bool * list jsstring) :=
  let* ok := validateField field in
  if negb ok then
    let* proto := gets inherited in
    let fieldName := getFieldDisplayName proto (name field) in
    ret (false, snd acc ++ [fieldName ++ lit " is required or invalid."])
  else ret acc.

(** [form.querySelectorAll] is called first: when a listed element
    shadows it the call throws before any field is validated. *)
Definition validateBusinessForm : M (Completion (bool * list jsstring)) :=
  let* shadowed := gets (exposes (lit "querySelectorAll")) in
  if shadowed then ret (Throw TypeError)
  else
    let* controls := gets requiredFields in
    let* validation := forEach controls checkRequired (true, []) in
    ret (Normal validation).

(** *** Notifications and the loader *)

Definition closeNotification (notification : nat) : M unit :=
  elementClassRemove notification (lit "show") >>
  setTimeout (Detach notification) 300.

Definition showNotification (type title message : jsstring)
    (duration : N) : M nat :=
  let* notification :=
    createElement [lit "professional-notification"; type]
      (NotificationPanel type title message) in
  appendChild notification >>
  setTimeout (AutoClose (uid notification)) duration >>
  requestAnimationFrame (AddShow (uid notification)) >>
  ret (uid notification).

Definition showLoader (message : jsstring) : M nat :=
  let* loader :=
    createElement [lit "professional-loader"] (LoaderPanel message) in
  appendChild loader >>
  requestAnimationFrame (AddShow (uid loader)) >>
  ret (uid loader).

Definition hideLoader (loader : nat) : M unit :=
  elementClassRemove loader (lit "show") >>
  setTimeout (Detach loader) 300.

(** *** Submission *)

(** [form.querySelectorAll('.form-group')] *)
Definition formGroups (st : App) : list nat :=
  filter (fun el => lit "form-group" ∈ classesOf st el) (formElements st).

Definition clearGroupMarkers : M unit :=
  let* groups := gets formGroups in
  forEach groups (fun group _ =>
    classListRemove group [lit "focused"; lit "success"; lit "error"]) tt.

Definition setValue (v : jsstring) (f : Field) : Field :=
  mkField (name f) v (defaultValue f) (required f) (parentElement f).

(** [form.reset()]: every control returns to its default value. *)
Definition formReset : M unit :=
  modify (fun st =>
    setFields (map (fun f => setValue (defaultValue f) f) (fields st)) st).

(** [submitApplication] up to its [await]: the loader is shown and the
    rest of the function is scheduled 2000 ms later. *)
Definition submitApplication : M unit :=
  let* loader := showLoader (lit "Processing your application...") in
  setTimeout (AfterDelay loader) 2000.

(** The [catch] block of [submitApplication]. *)
Definition submissionFailed (loader : nat) : M unit :=
  hideLoader loader >>
  showNotification (lit "error") (lit "Submission Failed")
    (lit "Please try again or contact support.") 4000 >>
  ret tt.

(** [submitApplication] after its [await].  The awaited promise always
    resolves.  In the [try] block [form.reset()] and
    [form.querySelectorAll(...)] throw when a listed element shadows
    the method; the [catch] block then runs, after the success
    notification has been shown. *)
Definition submitApplicationResumed (loader : nat) : M unit :=
  hideLoader loader >>
  showNotification (lit "success")
    (lit "Application Submitted Successfully!")
    (lit "Our recruitment team will contact you within 24 hours.") 4000 >>
  let* resetShadowed := gets (exposes (lit "reset")) in
  if resetShadowed then submissionFailed loader
  else
    formReset >>
    let* queryShadowed := gets (exposes (lit "querySelectorAll")) in
    if queryShadowed then submissionFailed loader
    else clearGroupMarkers.

(** An exception of [validateBusinessForm] propagates out of the
    listener: nothing is submitted and nothing is shown. *)
Definition handleFormSubmit : M (Completion unit) :=
  let* validation := validateBusinessForm in
  match validation with
  | Throw e => ret (Throw e)
  | Normal validation =>
      if fst validation then submitApplication >> ret (Normal tt)
      else
        showNotification (lit "error") (lit "Application Incomplete")
          (join (lit " ") (snd validation)) 4000 >>
        ret (Normal tt)
  end.

(** *** The modal *)

Definition onModal (f : Modal -> Modal) : M unit :=
  modify (fun st => setModal (f <$> modal st) st).

Definition openModal : M unit :=
  let* modal := gets modal in
  match modal with
  | Some m =>
      onModal (fun m => mkModal (lit "block") (modalClass m) (hasInput m)
                          (containsForm m)) >>
      requestAnimationFrame ModalActivate >>
      modify (setBodyOverflow (lit "hidden")) >>
      if hasInput m then setTimeout ModalFocusFirst 300 else ret tt
  | None => ret tt
  end.

Definition closeModal : M unit :=
  let* modal := gets modal in
  match modal with
  | Some _ =>
      onModal (fun m => mkModal (display m)
                          (tokensRemove [lit "active"] (modalClass m))
                          (hasInput m) (containsForm m)) >>
      setTimeout ModalHide 300
  | None => ret tt
  end.

(** The closure [closeModal] hands to [setTimeout].  Its last
    statement calls [form.querySelectorAll], which throws when a listed
    element shadows it; the dialog is hidden by then. *)
Definition closeModalFinished : M (Completion unit) :=
  onModal (fun m => mkModal (lit "none") (modalClass m) (hasInput m)
                      (containsForm m)) >>
  modify (setBodyOverflow []) >>
  let* modal := gets modal in
  match modal with
  | Some m =>
      if containsForm m then
        let* shadowed := gets (exposes (lit "querySelectorAll")) in
        if shadowed then ret (Throw TypeError)
        else clearGroupMarkers >> ret (Normal tt)
      else ret (Normal tt)
  | None => ret (Normal tt)
  end.

(** Running a scheduled continuation.  An exception that escapes a
    timer callback is reported by the event loop and goes no further.
    [ModalFocusFirst] moves the input focus, which is not part of
    [App]; the listeners the focus event triggers are not run here. *)
Definition run (cb : Callback) : M unit :=
  match cb with
  | AddShow el => elementClassAdd el (lit "show")
  | AutoClose notification =>
      let* present := gets (attached notification) in
      if present then closeNotification notification else ret tt
  | Detach el =>
      let* present := gets (attached el) in
      if present then removeChild el else ret tt
  | AfterDelay loader => submitApplicationResumed loader
  | ModalActivate =>
      onModal (fun m => mkModal (display m)
                          (tokensAdd (lit "active") (modalClass m))
                          (hasInput m) (containsForm m))
  | ModalFocusFirst => ret tt
  | ModalHide => closeModalFinished >> ret tt
  end.

(** *** Event handlers that read the modal *)

Inductive Outcome : Type :=
| Returned (st : App)
| Thrown (e : Error).

(** The [keydown] listener of [setupBusinessTracking]:
    [document.getElementById('applicationModal').style] is read without
    a null check once the key is Escape. *)
Definition onKeydown (key : jsstring) (st : App) : Outcome :=
  if strictEq key (lit "Escape") then
    match modal st with
    | None => Thrown TypeError
    | Some m =>
        if negb (strictEq (display m) (lit "none"))
        then Returned (snd (closeModal st))
        else Returned st
    end
  else Returned st.

(** The click listener on the modal, reached through [?.]: it exists
    only when the modal does. *)
Definition onModalClick (targetIsOverlay : bool) (st : App) : Outcome :=
  match modal st with
  | None => Returned st
  | Some _ =>
      if targetIsOverlay then Returned (snd (closeModal st))
      else Returned st
  end.

End Form.

(** ** The bilingual content toggle ([LanguageManager]) *)

Module Lang.
Import Js.

(** [currentLanguage] only ever holds ['en'] or ['hi']. *)
Inductive Language : Type := En | Hi.

Definition code (l : Language) : jsstring :=
  match l with En => lit "en" | Hi => lit "hi" end.

(** The children of an element: a single text node, as [textContent]
    leaves them, or the nodes the parser built from the markup last
    assigned through [innerHTML]. *)
Inductive Content : Type :=
| Text (s : jsstring)
| Markup (html : jsstring).

(** An element matched by [[data-en][data-hi]].  [tagName] is its tag
    name, in upper case as the DOM reports it.  [selectOption] tells
    whether [select option[data-en][data-hi]] matches it too.
    [reparse] is the element's view of the parser and the serialiser:
    what [innerHTML] reads back once the given markup has been assigned
    to it, that is the markup parsed in the context of this element and
    serialised again (attribute values in double quotes, character
    references and tags normalised).  Tagged elements are taken not to
    contain one another and not to be [template] elements. *)
Record Tagged : Type := mkTagged {
  tagName : jsstring;
  dataEn : jsstring;
  dataHi : jsstring;
  content : Content;
  selectOption : bool;
  reparse : jsstring -> jsstring
}.

(** An input or textarea carrying both placeholder attributes. *)
Record Control : Type := mkControl {
  enPlaceholder : jsstring;
  hiPlaceholder : jsstring;
  placeholder : jsstring
}.

Record Page : Type := mkPage {
  currentLanguage : Language;
  localStorage : gmap jsstring jsstring;
  setItemCalls : list (jsstring * jsstring);
  tagged : list Tagged;
  controls : list Control;
  langText : option jsstring;
  documentLang : jsstring;
  appPresent : bool;
  tracked : list (jsstring * jsstring)
}.

Definition setCurrentLanguage (v : Language) (pg : Page) : Page :=
  mkPage v (localStorage pg) (setItemCalls pg) (tagged pg) (controls pg)
    (langText pg) (documentLang pg) (appPresent pg) (tracked pg).
Definition setTagged (v : list Tagged) (pg : Page) : Page :=
  mkPage (currentLanguage pg) (localStorage pg) (setItemCalls pg) v
    (controls pg) (langText pg) (documentLang pg) (appPresent pg)
    (tracked pg).
Definition setControls (v : list Control) (pg : Page) : Page :=
  mkPage (currentLanguage pg) (localStorage pg) (setItemCalls pg)
    (tagged pg) v (langText pg) (documentLang pg) (appPresent pg)
    (tracked pg).
Definition setLangText (v : option jsstring) (pg : Page) : Page :=
  mkPage (currentLanguage pg) (localStorage pg) (setItemCalls pg)
    (tagged pg) (controls pg) v (documentLang pg) (appPresent pg)
    (tracked pg).
Definition setDocumentLang (v : jsstring) (pg : Page) : Page :=
  mkPage (currentLanguage pg) (localStorage pg) (setItemCalls pg)
    (tagged pg) (controls pg) (langText pg) v (appPresent pg) (tracked pg).

Definition preferredLanguage : jsstring := lit "preferredLanguage".

(** [localStorage.setItem(key, v)] *)
Definition setItem (key v : jsstring) (pg : Page) : Page :=
  mkPage (currentLanguage pg) (<[key := v]> (localStorage pg))
    (setItemCalls pg ++ [(key, v)]) (tagged pg) (controls pg)
    (langText pg) (documentLang pg) (appPresent pg) (tracked pg).

(** [trackEvent(action, label)] of the application object. *)
Definition trackEvent (action label : jsstring) (pg : Page) : Page :=
  mkPage (currentLanguage pg) (localStorage pg) (setItemCalls pg)
    (tagged pg) (controls pg) (langText pg) (documentLang pg)
    (appPresent pg) (tracked pg ++ [(action, label)]).

(** The text of a text node as [innerHTML] serialises it. *)
Definition escapeUnit (c : N) : jsstring :=
  if c =? 0x26 then lit "&amp;"
  else if c =? 0x3C then lit "&lt;"
  else if c =? 0x3E then lit "&gt;"
  else if c =? 0xA0 then lit "&nbsp;"
  else [c].

(** The elements whose text children are serialised as they are, and
    the elements that are serialised without their children. *)
Definition rawTextHosts : list jsstring :=
  [lit "STYLE"; lit "SCRIPT"; lit "XMP"; lit "IFRAME"; lit "NOEMBED";
   lit "NOFRAMES"; lit "PLAINTEXT"; lit "NOSCRIPT"].

Definition voidHosts : list jsstring :=
  [lit "AREA"; lit "BASE"; lit "BASEFONT"; lit "BGSOUND"; lit "BR";
   lit "COL"; lit "EMBED"; lit "FRAME"; lit "HR"; lit "IMG"; lit "INPUT";
   lit "KEYGEN"; lit "LINK"; lit "META"; lit "PARAM"; lit "SOURCE";
   lit "TRACK"; lit "WBR"].

Definition isRawTextHost (tag : jsstring) : bool :=
  bool_decide (tag ∈ rawTextHosts).
Definition isVoidHost (tag : jsstring) : bool :=
  bool_decide (tag ∈ voidHosts).

(** [element.innerHTML], read: nothing for a void element; for a text
    node its data, escaped unless the element is a raw-text host; for
    assigned markup what the element reads back from it. *)
Definition innerHTML (e : Tagged) : jsstring :=
  if isVoidHost (tagName e) then []
  else
    match content e with
    | Text s =>
        if isRawTextHost (tagName e) then s else flat_map escapeUnit s
    | Markup html => reparse e html
    end.

(** The opening tag of the highlight wrapper, and the wrapper around
    a phrase. *)
Definition highlightOpen : jsstring :=
  lit "<span class=" ++ [0x22] ++ lit "highlight" ++ [0x22] ++ lit ">".
Definition highlight (phrase : jsstring) : jsstring :=
  highlightOpen ++ phrase ++ lit "</span>".

(** The emphasised phrase of each language: ['2 Days'] and its Hindi
    counterpart (digit two, space, DA, vowel sign I, NA). *)
Definition phrase (l : Language) : jsstring :=
  match l with
  | En => lit "2 Days"
  | Hi => [0x32; 0x20; 0x926; 0x93F; 0x928]
  end.

Definition payload (l : Language) (e : Tagged) : jsstring :=
  match l with En => dataEn e | Hi => dataHi e end.

Definition setContent (c : Content) (e : Tagged) : Tagged :=
  mkTagged (tagName e) (dataEn e) (dataHi e) c (selectOption e) (reparse e).

(** The body of the [forEach] of [updateContent]. *)
Definition rewriteElement (l : Language) (e : Tagged) : Tagged :=
  match l with
  | Hi =>
      if includes highlightOpen (innerHTML e)
      then setContent
             (Markup (replace (phrase Hi) (highlight (phrase Hi)) (dataHi e)))
             e
      else setContent (Text (dataHi e)) e
  | En =>
      if includes highlightOpen (innerHTML e)
      then setContent
             (Markup (replace (phrase En) (highlight (phrase En)) (dataEn e)))
             e
      else setContent (Text (dataEn e)) e
  end.

(** The body of the [forEach] of [updateFormPlaceholders], on an
    option and on an input or textarea. *)
Definition rewriteOption (l : Language) (e : Tagged) : Tagged :=
  if selectOption e
  then setContent (Text (match l with Hi => dataHi e | En => dataEn e end)) e
  else e.

Definition rewritePlaceholder (l : Language) (c : Control) : Control :=
  let v := match l with Hi => hiPlaceholder c | En => enPlaceholder c end in
  mkControl (enPlaceholder c) (hiPlaceholder c) (if truthy v then v else []).

Definition updateFormPlaceholders (pg : Page) : Page :=
  let l := currentLanguage pg in
  setControls (map (rewritePlaceholder l) (controls pg))
    (setTagged (map (rewriteOption l) (tagged pg)) pg).

Definition updateContent (pg : Page) : Page :=
  let l := currentLanguage pg in
  updateFormPlaceholders (setTagged (map (rewriteElement l) (tagged pg)) pg).

(** The label of the toggle button: the name of the other language. *)
Definition hindiName : jsstring := [0x939; 0x93F; 0x902; 0x926; 0x940].

Definition updateButton (pg : Page) : Page :=
  match langText pg with
  | Some _ =>
      setLangText
        (Some (match currentLanguage pg with
               | En => hindiName
               | Hi => lit "English"
               end)) pg
  | None => pg
  end.

Definition switchToHindi (pg : Page) : Page :=
  setDocumentLang (lit "hi")
    (updateButton (updateContent (setCurrentLanguage Hi pg))).

Definition switchToEnglish (pg : Page) : Page :=
  setDocumentLang (lit "en")
    (updateButton (updateContent (setCurrentLanguage En pg))).

(** [localStorage.getItem('preferredLanguage') || 'en'] *)
Definition savedLang (pg : Page) : jsstring :=
  match localStorage pg !! preferredLanguage with
  | Some v => if truthy v then v else lit "en"
  | None => lit "en"
  end.

Definition init (pg : Page) : Page :=
  if strictEq (savedLang pg) (lit "hi") then switchToHindi pg else pg.

(** The constructor: [currentLanguage = 'en'], then [init()]. *)
Definition construct (pg : Page) : Page :=
  init (setCurrentLanguage En pg).

Definition toggle (pg : Page) : Page :=
  let pg1 :=
    match currentLanguage pg with
    | En => switchToHindi pg
    | Hi => switchToEnglish pg
    end in
  let pg2 := setItem preferredLanguage (code (currentLanguage pg1)) pg1 in
  if appPresent pg2 then trackEvent (lit "Language") (lit "Switch") pg2
  else pg2.

End Lang.

(** ** The vocabulary of the design write-up

  Predicates and projections that follow the words of the write-up, to
  be compared with the definitions above. *)

Module Spec.
Import Js Form Lang.

(** No whitespace and no ['@']. *)
Definition Plain (c : N) : Prop := isWhiteSpace c = false ∧ c ≠ 0x40.

(** The [local@domain.tld] shape: a non-empty local part, ['@'], a
    non-empty domain, ['.'], a non-empty tld, with no whitespace and no
    further ['@'] anywhere. *)
Definition EmailShape (v : jsstring) : Prop :=
  ∃ loc domain tld : jsstring,
    v = loc ++ lit "@" ++ domain ++ lit "." ++ tld
    ∧ loc ≠ [] ∧ domain ≠ [] ∧ tld ≠ []
    ∧ Forall Plain loc ∧ Forall Plain domain ∧ Forall Plain tld.

Definition Digit (c : N) : Prop := 0x30 ≤ c ∧ c ≤ 0x39.

(** Exactly ten digits, the first one of 6, 7, 8, 9. *)
Definition PhoneShape (v : jsstring) : Prop :=
  length v = 10%nat ∧ Forall Digit v
  ∧ ∃ d, head v = Some d ∧ 0x36 ≤ d ∧ d ≤ 0x39.

Definition Blank (v : jsstring) : Prop :=
  Forall (fun c => isWhiteSpace c = true) v.

(** The validity marker a field shows, read off the class list of the
    element that carries it. *)
Inductive Validity : Type := Untouched | Valid | Invalid.

Definition validity (st : App) (f : Field) : Validity :=
  let cl := classesOf st (parentElement f) in
  if decide (lit "error" ∈ cl) then Invalid
  else if decide (lit "success" ∈ cl) then Valid
  else Untouched.

(** The classification of a field snapshot: what [validateField]
    returns for it on any page. *)
Definition verdict (f : Field) : bool :=
  isValidFor (required f) (name f) (trim (value f)).

(** The class list [validateField] leaves on the element that carries
    the field: both markers removed, then the marker of the verdict
    added when the trimmed value is not empty. *)
Definition markerAfter (f : Field) (cl : list jsstring) : list jsstring :=
  let v := trim (value f) in
  let cleared := tokensRemove [lit "error"; lit "success"] cl in
  if truthy v
  then tokensAdd (if isValidFor (required f) (name f) v
                  then lit "success" else lit "error") cleared
  else cleared.

(** The page after the synchronous part of [submitApplicationResumed],
    before the markers are cleared. *)
Definition resumedBeforeClear (loader : nat) (s : App) : App :=
  mkApp (map (fun f => setValue (defaultValue f) f) (fields s))
    (formElements s) (classes s)
    (map (onElement loader (tokensRemove [lit "show"])) (body s)
     ++ [mkElement (nextId s) [lit "professional-notification"; lit "success"]
           (NotificationPanel (lit "success")
              (lit "Application Submitted Successfully!")
              (lit "Our recruitment team will contact you within 24 hours."))])
    ((timers s ++ [(300, Detach loader)]) ++ [(4000, AutoClose (nextId s))])
    (frames s ++ [AddShow (nextId s)])
    (S (nextId s)) (modal s) (bodyOverflow s) (exposed s) (inherited s).

(** The display-name lookup with the raw identifier as fallback, and
    the message of an invalid required field. *)
Definition displayName (fieldName : jsstring) : jsstring :=
  default fieldName (displayNames !! fieldName).

Definition errorMessage (f : Field) : jsstring :=
  displayName (name f) ++ lit " is required or invalid.".

(** The message [validateBusinessForm] pushes for an invalid required
    field on the page [st]. *)
Definition pushedMessage (st : App) (f : Field) : jsstring :=
  getFieldDisplayName (inherited st) (name f)
  ++ lit " is required or invalid.".


(** The loaders on the page and the submissions in flight (those whose
    simulated delay has not elapsed). *)
Definition isLoader (e : Element) : bool :=
  match panel e with LoaderPanel _ => true | NotificationPanel _ _ _ => false end.

Definition loaders (st : App) : list Element := filter (fun e => isLoader e = true) (body st).

Definition isAfterDelay (t : N * Callback) : bool :=
  match snd t with AfterDelay _ => true | _ => false end.

Definition inFlight (st : App) : nat :=
  length (filter (fun t => isAfterDelay t = true) (timers st)).

Definition other (l : Language) : Language :=
  match l with En => Hi | Hi => En end.

(** A tagged element shows language [l]: its payload for [l] as plain
    text, or that payload with the highlight wrapper around the
    emphasised phrase. *)
Definition Shows (l : Language) (e : Tagged) : Prop :=
  content e = Text (payload l e)
  ∨ content e = Markup (replace (phrase l) (highlight (phrase l)) (payload l e)).

Definition ShowsPlaceholder (l : Language) (c : Control) : Prop :=
  placeholder c = match l with En => enPlaceholder c | Hi => hiPlaceholder c end.

(** The payload of [e] for [l] with the wrapper around the emphasised
    phrase, and that [innerHTML] reads the opening tag of the wrapper
    back once that markup has been assigned to [e]. *)
Definition wrapped (l : Language) (e : Tagged) : jsstring :=
  replace (phrase l) (highlight (phrase l)) (payload l e).

Definition ReadsWrapper (l : Language) (e : Tagged) : Prop :=
  includes highlightOpen (innerHTML (setContent (Markup (wrapped l e)) e))
  = true.

(** A tagged element reflects [l] and keeps doing so across a switch to
    the other language and back: plain text in an element that is not a
    raw-text host, or (for an element that is not an option)
    highlighted text from which the wrapper is read back in both
    languages. *)
Definition Reflects (l : Language) (e : Tagged) : Prop :=
  (content e = Text (payload l e) ∧ isRawTextHost (tagName e) = false)
  ∨ (selectOption e = false
     ∧ content e = Markup (wrapped l e)
     ∧ ReadsWrapper l e
     ∧ ReadsWrapper (other l) e).

(** The page is in step with the language state: storage holds the
    code of [currentLanguage] and all bilingual content reflects it. *)
Definition InStep (pg : Page) : Prop :=
  localStorage pg !! preferredLanguage = Some (code (currentLanguage pg))
  ∧ Forall (Reflects (currentLanguage pg)) (tagged pg)
  ∧ Forall (ShowsPlaceholder (currentLanguage pg)) (controls pg).

End Spec.

(** ** Sample fields and pages *)

Module Samples.
Import Js Form Lang.

(** The text of a built-in function, in the form V8 and SpiderMonkey
    print it (the exact text is left to the engine). *)
Definition nativeFunction (f : jsstring) : jsstring :=
  lit "function " ++ f ++ lit "() { [native code] }".

Definition objectPrototypeMethods : list jsstring :=
  [lit "hasOwnProperty"; lit "isPrototypeOf"; lit "propertyIsEnumerable";
   lit "toLocaleString"; lit "toString"; lit "valueOf";
   lit "__defineGetter__"; lit "__defineSetter__";
   lit "__lookupGetter__"; lit "__lookupSetter__"].

(** [Object.prototype] of an unmodified realm: [__proto__] is the
    accessor whose value on an object literal is [Object.prototype]
    itself, which renders as [[object Object]]; [constructor] is
    [Object]; the other members are methods. *)
Definition standardPrototype (key : jsstring) : option jsstring :=
  if strictEq key (lit "__proto__") then Some (lit "[object Object]")
  else if strictEq key (lit "constructor")
  then Some (nativeFunction (lit "Object"))
  else if bool_decide (key ∈ objectPrototypeMethods)
  then Some (nativeFunction key)
  else None.

(** A page with no form controls, no created elements and no modal. *)
Definition blankApp : App :=
  mkApp [] [] ∅ [] [] [] 0 None [] [] standardPrototype.

Definition emailField (v : jsstring) : Field :=
  mkField (lit "email") v [] true 0.
Definition phoneField (v : jsstring) : Field :=
  mkField (lit "phone") v [] true 1.
Definition cityField (v : jsstring) : Field :=
  mkField (lit "city") v [] false 2.

(** A form with one required control whose default value is not empty:
    a radio button, whose value is its [value] attribute. *)
Definition prefilledApp : App :=
  mkApp [mkField (lit "gender") (lit "male") (lit "male") true 0]
    [0%nat] {[0%nat := [lit "form-group"]]} [] [] [] 1 None [] []
    standardPrototype.

(** A form with one required control, filled in by the user. *)
Definition filledApp : App :=
  mkApp [mkField (lit "email") (lit "a@b.c") [] true 0]
    [0%nat] {[0%nat := [lit "form-group"]]} [] [] [] 1 None [] []
    standardPrototype.

(** The same form while its submission is in flight. *)
Definition submittingApp : App := snd (handleFormSubmit filledApp).


(** A form whose one required control is named [__proto__] and left
    blank. *)
Definition inheritedNameApp : App :=
  mkApp [mkField (lit "__proto__") [] [] true 0]
    [0%nat] {[0%nat := [lit "form-group"]]} [] [] [] 1 None [] []
    standardPrototype.

(** A button label in both languages, showing English. *)
Definition applyButton : Tagged :=
  mkTagged (lit "BUTTON") (lit "Apply Now")
    [0x906; 0x935; 0x947; 0x926; 0x928]
    (Text (lit "Apply Now")) false id.

(** A headline with the emphasised phrase inside the highlight wrapper.
    The markup assigned to it is text and one [span] whose attribute is
    written the way the serialiser writes it, so it reads back as it
    is. *)
Definition headline : Tagged :=
  mkTagged (lit "H1") (lit "Job ready in 2 Days")
    [0x32; 0x20; 0x926; 0x93F; 0x928; 0x20; 0x92E; 0x947; 0x902]
    (Markup (lit "Job ready in " ++ highlight (lit "2 Days"))) false id.

Definition nameInput : Control :=
  mkControl (lit "Full name") [0x928; 0x93E; 0x92E] (lit "Full name").

(** A first visit: nothing is stored yet. *)
Definition firstVisit : Page :=
  mkPage En ∅ [] [applyButton; headline] [nameInput] (Some hindiName) (lit "en")
    true [].

(** A later visit of a reader who chose English. *)
Definition englishVisit : Page :=
  mkPage En {[preferredLanguage := lit "en"]} [] [applyButton; headline] [nameInput]
    (Some hindiName) (lit "en") true [].

(** A later visit of a reader who chose Hindi, as the document loads. *)
Definition hindiVisit : Page :=
  mkPage En {[preferredLanguage := lit "hi"]} [] [applyButton; headline] [nameInput]
    (Some hindiName) (lit "en") true [].

End Samples.

(** ** Rate limiting ([debounce], [throttle])

    The closures returned by [debounce] and [throttle] keep one variable
    each.  They react to two kinds of events: a call, and the firing of a
    timer they have set.  [func] is modelled by the list of argument
    tuples it has been applied to. *)

Module Timing.

(** What happens to a wrapped function: it is called, or one of the
    timers it has set fires. *)
Inductive Event (X : Type) : Type :=
| Call (x : X)
| TimerFires.
Arguments Call {X} x.
Arguments TimerFires {X}.

(** The payloads of the calls in a trace, and its timer firings. *)
Definition callArgs {X} (es : list (Event X)) : list X :=
  omap (fun e => match e with Call a => Some a | TimerFires => None end) es.

Definition isFiring {X} (e : Event X) : bool :=
  match e with Call _ => false | TimerFires => true end.

Definition firings {X} (es : list (Event X)) : nat :=
  length (filter (fun e => isFiring e = true) es).

Section Wrapped.
Variable A : Type.

(** A call of the function [throttle] returns, with what [func] does
    when it is applied to the arguments: the calls of the throttled
    function it makes itself while it runs, in order, and whether it
    then throws instead of returning. *)
#[warnings="-register-all"]
Inductive Invocation : Type :=
| Invoke (args : A) (nested : list Invocation) (throws : bool).

(** [throttle]: [inThrottle], the number of reset timers still to fire,
    and the applications of [func] so far. *)
Record Throttled : Type := mkThrottled {
  inThrottle : bool;
  resets : nat;
  applied : list A
}.

Definition throttleInit : Throttled := mkThrottled false 0 [].

(** The function [throttle] returns.  [func.apply] runs before
    [inThrottle] is set: the calls [func] makes meanwhile find the
    flag as it was, and when [func] throws the flag is not set and no
    timer is. *)
Fixpoint invoke (c : Invocation) (s : Throttled) : Throttled :=
  match c with
  | Invoke args nested throws =>
      if negb (inThrottle s) then
        let running :=
          fold_left (fun acc c' => invoke c' acc) nested
            (mkThrottled (inThrottle s) (resets s) (applied s ++ [args])) in
        if throws then running
        else mkThrottled true (S (resets running)) (applied running)
      else s
  end.

Definition throttleStep (s : Throttled) (e : Event Invocation) : Throttled :=
  match e with
  | Call c => invoke c s
  | TimerFires =>
      match resets s with
      | O => s
      | S n => mkThrottled false n (applied s)
      end
  end.

(** A call during which [func] neither calls the throttled function
    nor throws. *)
Definition plain (c : Invocation) : bool :=
  match c with
  | Invoke _ [] false => true
  | Invoke _ _ _ => false
  end.

(** The arguments of a call and of the calls [func] would make during
    it, in the order they are made. *)
Fixpoint received (c : Invocation) : list A :=
  match c with
  | Invoke args nested _ => args :: flat_map received nested
  end.

(** [debounce]: the arguments held by the live timer, if there is one,
    and the applications of [func] so far.  A call clears the live timer
    and sets a new one.  [func] is applied as the last step of the
    timer's callback, so the calls it makes while it runs are calls
    that follow the firing in the trace. *)
Record Debounced : Type := mkDebounced {
  timeout : option A;
  called : list A
}.

Definition debounceInit : Debounced := mkDebounced None [].

Definition debounceStep (s : Debounced) (e : Event A) : Debounced :=
  match e with
  | Call args => mkDebounced (Some args) (called s)
  | TimerFires =>
      match timeout s with
      | Some args => mkDebounced None (called s ++ [args])
      | None => s
      end
  end.

End Wrapped.

Arguments Invoke {A} args nested throws.
Arguments mkThrottled {A}.
Arguments inThrottle {A}.
Arguments resets {A}.
Arguments applied {A}.
Arguments throttleInit {A}.
Arguments invoke {A}.
Arguments throttleStep {A}.
Arguments plain {A}.
Arguments received {A}.
Arguments mkDebounced {A}.
Arguments timeout {A}.
Arguments called {A}.
Arguments debounceInit {A}.
Arguments debounceStep {A}.

End Timing.

(** ** The header's scroll classes ([setupHeaderEffects])

    [window.pageYOffset] is a finite double; the handler only compares
    offsets, so an offset is a rational number. *)

Module Header.
Import Js Form.

Record State : Type := mkState {
  lastScroll : QArith_base.Q;
  classList : list jsstring
}.

(** [classList.contains(t)] *)
Definition contains (t : jsstring) (cl : list jsstring) : bool :=
  bool_decide (t ∈ cl).

Definition zero : QArith_base.Q := QArith_base.Qmake 0 1.
Definition gtb (a b : QArith_base.Q) : bool := negb (QArith_base.Qle_bool a b).
Definition ltb (a b : QArith_base.Q) : bool := negb (QArith_base.Qle_bool b a).

(** The function handed to [throttle] in [setupHeaderEffects]. *)
Definition handleScroll (currentScroll : QArith_base.Q) (h : State) : State :=
  if QArith_base.Qle_bool currentScroll zero then
    mkState (lastScroll h)
      (tokensRemove [lit "scroll-up"; lit "scroll-down"] (classList h))
  else
    let cl :=
      if gtb currentScroll (lastScroll h)
         && negb (contains (lit "scroll-down") (classList h))
      then tokensAdd (lit "scroll-down")
             (tokensRemove [lit "scroll-up"] (classList h))
      else if ltb currentScroll (lastScroll h)
              && contains (lit "scroll-down") (classList h)
      then tokensAdd (lit "scroll-up")
             (tokensRemove [lit "scroll-down"] (classList h))
      else classList h in
    mkState currentScroll cl.

End Header.

(** ** The mobile navigation drawer ([MobileMenuManager]) *)

Module Menu.
Import Js Form.

(** [nav] is the class list of the element with id [mobileNav], when the
    document has one; [icon] is the class name of the element matched by
    ['.mobile-menu-toggle i'], when there is one; the overlay is the
    element [setupOverlay] creates. *)
Record Manager : Type := mkManager {
  nav : option (list jsstring);
  isOpen : bool;
  overlayOpacity : jsstring;
  overlayVisibility : jsstring;
  icon : option jsstring
}.

(** The constructor, with [setupOverlay]. *)
Definition construct (navElement : option (list jsstring))
    (iconElement : option jsstring) : Manager :=
  mkManager navElement false (lit "0") (lit "hidden") iconElement.

Definition open (m : Manager) : M Manager :=
  match nav m with
  | Some cl =>
      modify (setBodyOverflow (lit "hidden")) >>
      ret (mkManager (Some (tokensAdd (lit "mobile-active") cl)) true
             (lit "1") (lit "visible")
             (match icon m with
              | Some _ => Some (lit "fas fa-times")
              | None => None
              end))
  | None => ret m
  end.

Definition close (m : Manager) : M Manager :=
  match nav m with
  | Some cl =>
      modify (setBodyOverflow []) >>
      ret (mkManager (Some (tokensRemove [lit "mobile-active"] cl)) false
             (lit "0") (lit "hidden")
             (match icon m with
              | Some _ => Some (lit "fas fa-bars")
              | None => None
              end))
  | None => ret m
  end.

Definition toggle (m : Manager) : M Manager :=
  if isOpen m then close m else open m.

End Menu.

(** ** Further vocabulary *)

Module Props.
Import Js Form Lang Spec.

(** Every element on the page was created before the next one will be:
    [document.createElement] returns a new object each time. *)
Definition Fresh (st : App) : Prop :=
  ∀ e, e ∈ body st -> (uid e < nextId st)%nat.

(** The marker that matches the classification of a field: none for an
    empty trimmed value. *)
Definition expectedValidity (f : Field) : Validity :=
  if truthy (trim (value f))
  then (if verdict f then Valid else Invalid)
  else Untouched.

(** The drawer's parts agree on whether it is open. *)
Definition Agrees (m : Menu.Manager) (st : App) : Prop :=
  ∀ cl, Menu.nav m = Some cl ->
    if Menu.isOpen m
    then (lit "mobile-active" ∈ cl
          ∧ Menu.overlayOpacity m = lit "1"
          ∧ Menu.overlayVisibility m = lit "visible"
          ∧ bodyOverflow st = lit "hidden"
          ∧ (∀ i, Menu.icon m = Some i -> i = lit "fas fa-times"))
    else ((lit "mobile-active" ∉ cl)
          ∧ Menu.overlayOpacity m = lit "0"
          ∧ Menu.overlayVisibility m = lit "hidden"
          ∧ bodyOverflow st = []
          ∧ (∀ i, Menu.icon m = Some i -> i = lit "fas fa-bars")).

(** The class lists once the tokens [ts] are stripped from the elements
    [groups], one after the other. *)
Definition strippedClasses (ts : list jsstring) (groups : list nat)
    (cls : gmap nat (list jsstring)) : gmap nat (list jsstring) :=
  fold_left (fun c g => <[g := tokensRemove ts (default [] (c !! g))]> c)
    groups cls.

(** The three markers a [form-group] element can carry. *)
Definition markers : list jsstring :=
  [lit "focused"; lit "success"; lit "error"].

(** The modal as the end of the closing transition leaves it. *)
Definition hiddenModal (m : Modal) : Modal :=
  mkModal (lit "none") (modalClass m) (hasInput m) (containsForm m).

(** The modal as [openModal] leaves it, and once its opening frame has
    run. *)
Definition shownModal (m : Modal) : Modal :=
  mkModal (lit "block") (modalClass m) (hasInput m) (containsForm m).

Definition activatedModal (m : Modal) : Modal :=
  mkModal (display m) (tokensAdd (lit "active") (modalClass m))
    (hasInput m) (containsForm m).

(** The modal once [closeModal] has started the closing transition. *)
Definition deactivatedModal (m : Modal) : Modal :=
  mkModal (display m) (tokensRemove [lit "active"] (modalClass m))
    (hasInput m) (containsForm m).

(** The class lists after the closing transition: the markers are
    stripped when the modal holds the form and the form's
    [querySelectorAll] is not shadowed. *)
Definition classesAfterClose (st : App) : gmap nat (list jsstring) :=
  match modal st with
  | Some m =>
      if containsForm m && negb (exposes (lit "querySelectorAll") st)
      then strippedClasses markers (formGroups st) (classes st)
      else classes st
  | None => classes st
  end.

Definition NotBoth (cl : list jsstring) : Prop :=
  ¬ (lit "scroll-up" ∈ cl ∧ lit "scroll-down" ∈ cl).

Definition isText (e : Tagged) : Prop := ∃ s, content e = Text s.

(** The label that advertises the language one would switch to. *)
Definition advertised (l : Language) : jsstring :=
  match l with En => hindiName | Hi => lit "English" end.

End Props.

(** ** Further samples *)

Module MoreSamples.
Import Js Form Lang Samples.

(** A page with a closed modal that holds the form. *)
Definition modalApp : App :=
  mkApp [mkField (lit "email") (lit "a@b.c") [] true 0]
    [0%nat] {[0%nat := [lit "form-group"; lit "success"]]} [] [] [] 1
    (Some (mkModal [] [lit "modal"] true true)) [] [] standardPrototype.

(** The filled-in form of [filledApp] with a reset button named
    [reset]. *)
Definition resetButtonApp : App :=
  mkApp [mkField (lit "email") (lit "a@b.c") [] true 0]
    [0%nat] {[0%nat := [lit "form-group"; lit "success"]]} [] [] [] 1
    None [] [lit "reset"] standardPrototype.

(** A drawer whose navigation element exists, and one on a page without
    it. *)
Definition drawer : Menu.Manager :=
  Menu.construct (Some [lit "nav"]) (Some (lit "fas fa-bars")).
Definition drawerWithoutNav : Menu.Manager :=
  Menu.construct None (Some (lit "fas fa-bars")).

(** A headline whose Hindi payload lacks the emphasised phrase. *)
Definition looseHeadline : Tagged :=
  mkTagged (lit "H1") (lit "Job ready in 2 Days")
    [0x924; 0x948; 0x92F; 0x93E; 0x930]
    (Markup (lit "Job ready in " ++ highlight (lit "2 Days"))) false id.

(** A code listing in an [xmp] element, showing its English payload,
    which is the source text of a highlighted phrase. *)
Definition sampleListing : Tagged :=
  mkTagged (lit "XMP") (highlight (lit "fast"))
    [0x924; 0x947; 0x91C; 0x93C]
    (Text (highlight (lit "fast"))) false id.

(** An optional phone control with a malformed value, next to a valid
    required control. *)
Definition optionalPhoneApp : App :=
  mkApp [mkField (lit "email") (lit "a@b.c") [] true 0;
         mkField (lit "phone") (lit "12345") [] false 1]
    [0%nat; 1%nat]
    {[0%nat := [lit "form-group"]; 1%nat := [lit "form-group"]]}
    [] [] [] 2 None [] [] standardPrototype.

End MoreSamples.

Import Js Regex Form Lang Spec Samples.
Import Props MoreSamples.

(** ** Strings *)

Section Strings.

Lemma trimStart_blank (s : jsstring) : Blank s -> trimStart s = [].
Proof.
  induction 1 as [|c s Hc _ IH]; simpl; [done|]. by rewrite Hc.
Qed.

Lemma trim_blank (s : jsstring) : Blank s -> trim s = [].
Proof.
  intros H. unfold trim, trimEnd. by rewrite (trimStart_blank s H).
Qed.

Lemma startsWith_app (p s : jsstring) : startsWith p (p ++ s) = true.
Proof.
  induction p as [|a p IH]; simpl; [done|]. by rewrite N.eqb_refl.
Qed.

Lemma includes_app_r (p a b : jsstring) :
  includes p b = true -> includes p (a ++ b) = true.
Proof.
  intros H. induction a as [|c a IH]; simpl; [done|].
  rewrite IH. apply orb_true_r.
Qed.

Lemma includes_prefix (p r s : jsstring) : includes p (p ++ r ++ s) = true.
Proof.
  destruct p as [|a p]; [by destruct (r ++ s)|].
  simpl. rewrite N.eqb_refl, startsWith_app. done.
Qed.

(** Replacing an occurrence of [p] by text that starts with [q] leaves
    a string that includes [q]. *)
Lemma includes_replace (p q r s : jsstring) :
  includes p s = true -> includes q (replace p (q ++ r) s) = true.
Proof.
  induction s as [|c s IH]; intros H.
  - simpl in *. rewrite orb_false_r in H. rewrite H.
    rewrite <- app_assoc. apply includes_prefix.
  - cbn [replace]. cbn [includes] in H.
    destruct (startsWith p (c :: s)) eqn:E.
    + rewrite <- app_assoc. apply includes_prefix.
    + simpl in H. cbn [includes]. rewrite (IH H). apply orb_true_r.
Qed.

End Strings.

(** ** The matcher decides the language of a pattern *)

Section Matcher.

Lemma Matches_nil_nullable r s : Matches r s -> s = [] -> nullable r = true.
Proof.
  induction 1 as [| | r1 r2 s1 s2 _ IH1 _ IH2 | r1 r2 s _ IH | r1 r2 s _ IH
                 | | ]; intros E; simpl; try done.
  - apply app_nil in E as [-> ->]. by rewrite IH1, IH2.
  - by rewrite IH.
  - rewrite IH by done. apply orb_true_r.
Qed.

Lemma nullable_Matches r : nullable r = true -> Matches r [].
Proof.
  induction r as [| | p | r1 IH1 r2 IH2 | r1 IH1 r2 IH2 | r IH]; simpl;
    intros H; try done.
  - constructor.
  - apply andb_true_iff in H as [H1 H2].
    change (@nil N) with (@nil N ++ []). constructor; auto.
  - apply orb_true_iff in H as [H|H]; [apply MAltL | apply MAltR]; auto.
  - constructor.
Qed.

Lemma deriv_sound c r : forall s, Matches (deriv c r) s -> Matches r (c :: s).
Proof.
  induction r as [| | p | r1 IH1 r2 IH2 | r1 IH1 r2 IH2 | r IH]; simpl;
    intros s H.
  - inversion H.
  - inversion H.
  - destruct (p c) eqn:E; inversion H; subst. by constructor.
  - destruct (nullable r1) eqn:E.
    + inversion H as [| | | ? ? ? H' | ? ? ? H' | |]; subst.
      * inversion H' as [| | ? ? s1 s2 Ha Hb | | | |]; subst.
        change (c :: s1 ++ s2) with ((c :: s1) ++ s2). constructor; auto.
      * change (c :: s) with ([] ++ c :: s).
        constructor; [by apply nullable_Matches | auto].
    + inversion H as [| | ? ? s1 s2 Ha Hb | | | |]; subst.
      change (c :: s1 ++ s2) with ((c :: s1) ++ s2). constructor; auto.
  - inversion H; subst; [apply MAltL | apply MAltR]; auto.
  - inversion H as [| | ? ? s1 s2 Ha Hb | | | |]; subst.
    change (c :: s1 ++ s2) with ((c :: s1) ++ s2). constructor; auto.
Qed.

Lemma deriv_complete r s' :
  Matches r s' -> forall c s, s' = c :: s -> Matches (deriv c r) s.
Proof.
  induction 1 as [| p a Hp | r1 r2 s1 s2 H1 IH1 H2 IH2 | r1 r2 s0 _ IH
                 | r1 r2 s0 _ IH | | r s1 s2 H1 IH1 H2 IH2];
    intros c s E; simpl.
  - done.
  - injection E as -> <-. rewrite Hp. constructor.
  - destruct s1 as [|a s1]; simpl in E.
    + rewrite (Matches_nil_nullable _ _ H1 eq_refl).
      apply MAltR. by apply IH2.
    + injection E as -> <-.
      destruct (nullable r1); [apply MAltL|]; constructor; auto.
  - apply MAltL. by apply IH.
  - apply MAltR. by apply IH.
  - done.
  - destruct s1 as [|a s1]; simpl in E.
    + by apply IH2.
    + injection E as -> <-. constructor; auto.
Qed.

Lemma test_Matches r s : test r s = true <-> Matches r s.
Proof.
  revert r. induction s as [|c s IH]; intros r; simpl.
  - split; [apply nullable_Matches|].
    intros H. by apply (Matches_nil_nullable r []).
  - rewrite IH. split; [apply deriv_sound|].
    intros H. by apply (deriv_complete r (c :: s)).
Qed.

(** Repetition of a class *)

Lemma Matches_star_class p s :
  Matches (Star (Class p)) s <-> Forall (fun c => p c = true) s.
Proof.
  split.
  - intros H. remember (Star (Class p)) as r eqn:E.
    induction H as [| | | | | | r s1 s2 H1 _ H2 IH2]; try discriminate.
    + constructor.
    + injection E as ->. inversion H1; subst.
      constructor; [done | by apply IH2].
  - induction 1 as [|c s Hc _ IH]; [constructor|].
    change (c :: s) with ([c] ++ s). constructor; [by constructor | done].
Qed.

Lemma Matches_plus_class p s :
  Matches (plus (Class p)) s <-> s ≠ [] ∧ Forall (fun c => p c = true) s.
Proof.
  unfold plus. split.
  - intros H. inversion H as [| | ? ? s1 s2 Ha Hb | | | |]; subst.
    inversion Ha; subst. apply Matches_star_class in Hb.
    split; [done | by constructor].
  - intros [Hne H]. destruct H as [|c s Hc Hs]; [done|].
    change (c :: s) with ([c] ++ s).
    constructor; [by constructor | by apply Matches_star_class].
Qed.

Lemma Matches_times_class p n s :
  Matches (times n (Class p)) s
  <-> length s = n ∧ Forall (fun c => p c = true) s.
Proof.
  revert s. induction n as [|n IH]; intros s; simpl.
  - split.
    + intros H. by inversion H.
    + intros [H _]. destruct s; [constructor | done].
  - split.
    + intros H. inversion H as [| | ? ? s1 s2 Ha Hb | | | |]; subst.
      inversion Ha; subst. apply IH in Hb as [Hl Hf].
      simpl. split; [by rewrite Hl | by constructor].
    + intros [Hl Hf]. destruct Hf as [|c s Hc Hs]; [done|].
      change (c :: s) with ([c] ++ s). constructor; [by constructor|].
      apply IH. split; [by injection Hl | done].
Qed.

Lemma Matches_cat_class p r s :
  Matches (Cat (Class p) r) s
  <-> ∃ c s', s = c :: s' ∧ p c = true ∧ Matches r s'.
Proof.
  split.
  - intros H. inversion H as [| | ? ? s1 s2 Ha Hb | | | |]; subst.
    inversion Ha; subst. by eexists _, _.
  - intros (c & s' & -> & Hc & Hr).
    change (c :: s') with ([c] ++ s'). constructor; [by constructor | done].
Qed.

End Matcher.

(** ** The two patterns against the shapes of the write-up *)

Section Shapes.

Lemma Matches_cat r1 r2 s :
  Matches (Cat r1 r2) s
  <-> ∃ s1 s2, s = s1 ++ s2 ∧ Matches r1 s1 ∧ Matches r2 s2.
Proof.
  split.
  - intros H. inversion H; subst. by eexists _, _.
  - intros (s1 & s2 & -> & H1 & H2). by constructor.
Qed.

Lemma notSpaceNorAt_Plain c : notSpaceNorAt c = true <-> Plain c.
Proof.
  unfold notSpaceNorAt, Plain.
  rewrite andb_true_iff, !negb_true_iff, N.eqb_neq. done.
Qed.

Lemma Forall_notSpaceNorAt s :
  Forall (fun c => notSpaceNorAt c = true) s <-> Forall Plain s.
Proof. apply Forall_proper; [|done]. intros c. apply notSpaceNorAt_Plain. Qed.

Lemma isDigit_Digit c : isDigit c = true <-> Digit c.
Proof.
  unfold isDigit, Digit. rewrite andb_true_iff, !N.leb_le. done.
Qed.

Lemma emailPattern_shape v : test emailPattern v = true <-> EmailShape v.
Proof.
  rewrite test_Matches. unfold emailPattern, EmailShape. split.
  - intros H.
    apply Matches_cat in H as (loc & s1 & -> & Hl & H).
    apply Matches_cat_class in H as (a & s2 & -> & Ha & H).
    apply Matches_cat in H as (dom & s3 & -> & Hd & H).
    apply Matches_cat_class in H as (b & tld & -> & Hb & Ht).
    apply N.eqb_eq in Ha, Hb. subst a b.
    apply Matches_plus_class in Hl as [? Hl], Hd as [? Hd], Ht as [? Ht].
    apply Forall_notSpaceNorAt in Hl, Hd, Ht.
    by exists loc, dom, tld.
  - intros (loc & dom & tld & -> & ? & ? & ? & Hl & Hd & Ht).
    apply Forall_notSpaceNorAt in Hl, Hd, Ht.
    apply Matches_cat. exists loc, (lit "@" ++ dom ++ lit "." ++ tld).
    split; [done|]. split; [by apply Matches_plus_class|].
    apply Matches_cat_class. exists 0x40, (dom ++ lit "." ++ tld).
    split; [done|]. split; [done|].
    apply Matches_cat. exists dom, (lit "." ++ tld).
    split; [done|]. split; [by apply Matches_plus_class|].
    apply Matches_cat_class. exists 0x2E, tld.
    split; [done|]. split; [done|]. by apply Matches_plus_class.
Qed.

Lemma phonePattern_shape v : test phonePattern v = true <-> PhoneShape v.
Proof.
  rewrite test_Matches. unfold phonePattern, PhoneShape.
  rewrite Matches_cat_class. split.
  - intros (d & rest & -> & Hd & H).
    apply Matches_times_class in H as [Hlen Hall].
    unfold sixToNine in Hd. apply andb_true_iff in Hd as [H6 H9].
    apply N.leb_le in H6, H9.
    split; [simpl; by rewrite Hlen|]. split.
    + constructor; [unfold Digit; lia|].
      eapply Forall_impl; [exact Hall|]. intros c. apply isDigit_Digit.
    + exists d. simpl. done.
  - intros (Hlen & Hall & d & Hhd & H6 & H9).
    destruct v as [|d' rest]; [done|]. simpl in Hhd. injection Hhd as ->.
    exists d, rest. split; [done|]. split.
    + unfold sixToNine. apply andb_true_iff. by rewrite !N.leb_le.
    + apply Matches_times_class. split; [by injection Hlen|].
      apply Forall_cons in Hall as [_ Hall].
      eapply Forall_impl; [exact Hall|]. intros c. apply isDigit_Digit.
Qed.

End Shapes.

(** ** [validateField]: what it returns and what it writes *)

Section ValidateField.

Lemma classesOf_setClasses_insert st el cl :
  classesOf (setClasses (<[el := cl]> (classes st)) st) el = cl.
Proof. unfold classesOf. simpl. by rewrite lookup_insert_eq. Qed.

Lemma validateField_result f st :
  fst (validateField f st) = isValidFor (required f) (name f) (trim (value f)).
Proof.
  unfold validateField, bind, classListRemove, classListAdd, modify, ret.
  simpl. by destruct (truthy (trim (value f))).
Qed.

Lemma validateField_state f st :
  snd (validateField f st)
  = setClasses (<[parentElement f := markerAfter f (classesOf st (parentElement f))]>
                  (classes st)) st.
Proof.
  unfold validateField, bind, classListRemove, classListAdd, modify, ret,
    markerAfter.
  simpl. destruct (truthy (trim (value f))); simpl; [|done].
  rewrite classesOf_setClasses_insert. unfold setClasses. simpl.
  by rewrite insert_insert_eq.
Qed.

End ValidateField.

(** ** Field validation *)

Section FieldClaims.

Lemma EmailShape_nil : ¬ EmailShape [].
Proof.
  intros (loc & dom & tld & E & Hl & _). by destruct loc.
Qed.

Lemma PhoneShape_nil : ¬ PhoneShape [].
Proof. by intros [H _]. Qed.

Lemma isValidFor_email v :
  isValidFor true (lit "email") v = true <-> EmailShape v.
Proof.
  unfold isValidFor. destruct v as [|c v].
  - split; [done | intros H; by destruct EmailShape_nil].
  - change (strictEq (lit "email") (lit "email")) with true.
    cbn [truthy negb andb]. apply emailPattern_shape.
Qed.

Lemma isValidFor_phone b v :
  v ≠ [] -> isValidFor b (lit "phone") v = true <-> PhoneShape v.
Proof.
  unfold isValidFor. destruct v as [|c v]; [done|]. intros _.
  change (strictEq (lit "phone") (lit "email")) with false.
  change (strictEq (lit "phone") (lit "phone")) with true.
  cbn [truthy negb]. rewrite andb_false_r. apply phonePattern_shape.
Qed.

(** C1, as the source has it: a required field named [email] is Valid
    exactly when its value, once trimmed, has the [local@domain.tld]
    shape; so the empty value, ["a@b"] and ["notanemail"] are Invalid
    and ["a@b.c"] is Valid. *)
Theorem validateField_email (f : Field) (st : App) :
  name f = lit "email" -> required f = true ->
  (fst (validateField f st) = true <-> EmailShape (trim (value f)))
  ∧ (value f = [] -> fst (validateField f st) = false)
  ∧ (value f = lit "a@b" -> fst (validateField f st) = false)
  ∧ (value f = lit "a@b.c" -> fst (validateField f st) = true)
  ∧ (value f = lit "notanemail" -> fst (validateField f st) = false).
Proof.
  intros Hn Hr. rewrite validateField_result, Hn, Hr.
  split; [apply isValidFor_email|].
  repeat split; intros ->; reflexivity.
Qed.

Lemma validateField_email_witness :
  name (emailField (lit "a@b.c")) = lit "email"
  ∧ required (emailField (lit "a@b.c")) = true
  ∧ (fst (validateField (emailField (lit "a@b.c")) blankApp) = true
     <-> EmailShape (trim (value (emailField (lit "a@b.c"))))).
Proof.
  split; [reflexivity|]. split; [reflexivity|].
  apply (validateField_email (emailField (lit "a@b.c")) blankApp);
    reflexivity.
Defined.

(** C1 as worded fails on a value with blanks around it: [" a@b.c"]
    contains whitespace, yet the field is Valid. *)
Lemma validateField_email_padded :
  ¬ (fst (validateField (emailField (lit " a@b.c")) blankApp) = true
     <-> EmailShape (value (emailField (lit " a@b.c")))).
Proof.
  intros [H _]. specialize (H eq_refl).
  apply emailPattern_shape in H. vm_compute in H. discriminate.
Qed.

(** C2, as the source has it: a field named [phone] whose trimmed value
    is not empty is Valid exactly when that trimmed value is ten digits
    with a first digit among 6, 7, 8, 9; a trimmed value of another
    length, or one that starts with a digit below 6, is Invalid. *)
Theorem validateField_phone (f : Field) (st : App) :
  name f = lit "phone" -> trim (value f) ≠ [] ->
  (fst (validateField f st) = true <-> PhoneShape (trim (value f)))
  ∧ (length (trim (value f)) ≠ 10%nat -> fst (validateField f st) = false)
  ∧ (∀ d, head (trim (value f)) = Some d -> d < 0x36 ->
          fst (validateField f st) = false).
Proof.
  intros Hn Hv. rewrite validateField_result, Hn.
  pose proof (isValidFor_phone (required f) _ Hv) as Hiff.
  split; [done|]. split.
  - intros Hlen. apply not_true_is_false. intros H.
    apply Hiff in H as [H _]. done.
  - intros d Hd Hlt. apply not_true_is_false. intros H.
    apply Hiff in H as (_ & _ & d' & Hd' & H6 & _).
    rewrite Hd in Hd'. injection Hd' as ->. lia.
Qed.

Lemma validateField_phone_witness :
  name (phoneField (lit "9876543210")) = lit "phone"
  ∧ trim (value (phoneField (lit "9876543210"))) ≠ []
  ∧ (fst (validateField (phoneField (lit "9876543210")) blankApp) = true
     <-> PhoneShape (trim (value (phoneField (lit "9876543210"))))).
Proof.
  split; [reflexivity|]. split; [vm_compute; discriminate|].
  apply (validateField_phone (phoneField (lit "9876543210")) blankApp);
    [reflexivity | vm_compute; discriminate].
Defined.

(** C2 as worded fails on a value with a blank in front: it has eleven
    code units, yet the field is Valid. *)
Lemma validateField_phone_padded :
  value (phoneField (lit " 9876543210")) ≠ []
  ∧ ¬ (fst (validateField (phoneField (lit " 9876543210")) blankApp) = true
       <-> PhoneShape (value (phoneField (lit " 9876543210")))).
Proof.
  split; [vm_compute; discriminate|].
  intros [H _]. specialize (H eq_refl). destruct H as [H _].
  vm_compute in H. discriminate.
Qed.

(** C10: a value made of whitespace only is classified as the empty
    value is, with the same effect on the page: Invalid when the field
    is required and Valid when it is not, whatever the field's name. *)
Theorem validateField_blank (f : Field) (st : App) :
  Blank (value f) ->
  validateField f st = validateField (setValue [] f) st
  ∧ fst (validateField f st) = negb (required f).
Proof.
  intros Hb. split.
  - unfold validateField. simpl. by rewrite (trim_blank _ Hb).
  - rewrite validateField_result, (trim_blank _ Hb).
    unfold isValidFor. simpl. by destruct (required f).
Qed.

Lemma validateField_blank_witness :
  Blank (value (emailField (lit "   ")))
  ∧ fst (validateField (emailField (lit "   ")) blankApp) = false.
Proof.
  assert (Hb : Blank (value (emailField (lit "   "))))
    by (repeat constructor).
  split; [exact Hb|].
  exact (proj2 (validateField_blank (emailField (lit "   ")) blankApp Hb)).
Defined.

(** C6, as the source has it: [validateField] leaves the form's
    controls, the created elements, the timers, the frames and the
    modal as they were, and rewrites one class list, that of the
    field's parent element: both markers are removed and, when the
    trimmed value is not empty, the marker of the verdict is added. *)
Theorem validateField_writes_marker (f : Field) (st : App) :
  let st' := snd (validateField f st) in
  fields st' = fields st ∧ formElements st' = formElements st
  ∧ body st' = body st ∧ timers st' = timers st ∧ frames st' = frames st
  ∧ nextId st' = nextId st ∧ modal st' = modal st
  ∧ bodyOverflow st' = bodyOverflow st
  ∧ (∀ el, el ≠ parentElement f -> classes st' !! el = classes st !! el)
  ∧ classesOf st' (parentElement f)
    = markerAfter f (classesOf st (parentElement f)).
Proof.
  simpl. rewrite validateField_state. repeat split.
  - intros el Hne. simpl. by rewrite lookup_insert_ne.
  - apply classesOf_setClasses_insert.
Qed.

(** C6 as worded fails: validating a filled field changes the page,
    its parent element gains the [success] marker. *)
Lemma validateField_changes_page :
  ¬ (snd (validateField (cityField (lit "Pune")) blankApp) = blankApp).
Proof.
  intros H. apply (f_equal (fun st => classesOf st 2)) in H.
  vm_compute in H. discriminate.
Qed.

End FieldClaims.

(** ** Aggregate validation *)

Section ValidateForm.




Lemma validateField_frame f st :
  ∃ cl, snd (validateField f st) = setClasses cl st.
Proof. rewrite validateField_state. by eexists. Qed.

Lemma checkRequired_step f l (acc : bool * list jsstring) st :
  forEach (f :: l) checkRequired acc st
  = forEach l checkRequired
      (if verdict f then acc
       else (false, snd acc ++ [pushedMessage st f]))
      (snd (validateField f st)).
Proof.
  cbn [forEach]. unfold bind at 1. unfold checkRequired, bind at 1.
  pose proof (validateField_result f st) as H. fold (verdict f) in H.
  destruct (validateField_frame f st) as [cl Hcl].
  destruct (validateField f st) as [ok st1]. simpl in H, Hcl. subst ok st1.
  by destruct (verdict f).
Qed.

Lemma checkRequired_loop (l : list Field) :
  ∀ (acc : bool * list jsstring) (st : App),
    fst (forEach l checkRequired acc st)
    = (fst acc && forallb verdict l,
       snd acc
       ++ map (pushedMessage st) (filter (fun f => verdict f = false) l))
    ∧ ∃ cl, snd (forEach l checkRequired acc st) = setClasses cl st.
Proof.
  induction l as [|f l IH]; intros [b errs] st.
  - simpl. rewrite andb_true_r, app_nil_r. split; [done|].
    exists (classes st). by destruct st.
  - rewrite checkRequired_step.
    destruct (validateField_frame f st) as [cl1 ->].
    rewrite filter_cons. cbn [forallb fst snd].
    destruct (verdict f).
    + destruct (IH (b, errs) (setClasses cl1 st)) as [-> [cl2 ->]].
      cbn [fst snd]. split; [|by exists cl2].
      by rewrite decide_False.
    + destruct (IH (false, errs ++ [pushedMessage st f])
                  (setClasses cl1 st)) as [-> [cl2 ->]].
      cbn [fst snd]. split; [|by exists cl2].
      rewrite decide_True by done. rewrite andb_false_r. cbn [andb map].
      f_equal. by rewrite <- app_assoc.
Qed.

(** What [validateBusinessForm] returns, and that it writes class lists
    only. *)
Lemma validateBusinessForm_result st :
  exposes (lit "querySelectorAll") st = false ->
  fst (validateBusinessForm st)
  = Normal (forallb verdict (requiredFields st),
            map (pushedMessage st)
              (filter (fun f => verdict f = false) (requiredFields st)))
  ∧ ∃ cl, snd (validateBusinessForm st) = setClasses cl st.
Proof.
  intros Hq. unfold validateBusinessForm, bind, gets. rewrite Hq.
  destruct (checkRequired_loop (requiredFields st) (true, []) st)
    as [Hres Hst].
  destruct (forEach _ _ _ _) as [v st1]. cbn [fst snd] in *.
  by rewrite Hres.
Qed.

(** When a listed element shadows [querySelectorAll] the call throws and
    the page is left as it was. *)
Lemma validateBusinessForm_throws st :
  exposes (lit "querySelectorAll") st = true ->
  validateBusinessForm st = (Throw TypeError, st).
Proof.
  intros Hq. unfold validateBusinessForm. unfold bind at 1, gets at 1.
  by rewrite Hq.
Qed.


Lemma invalid_required_fields st :
  filter (fun f => verdict f = false) (requiredFields st)
  = filter (fun f => required f = true ∧ fst (validateField f st) = false)
      (fields st).
Proof.
  unfold requiredFields. rewrite list_filter_filter.
  apply list_filter_iff. intros f. rewrite validateField_result.
  unfold verdict. tauto.
Qed.

Lemma all_required_valid st :
  forallb verdict (requiredFields st) = true
  <-> ∀ f, f ∈ fields st -> required f = true ->
           fst (validateField f st) = true.
Proof.
  rewrite forallb_forall. unfold requiredFields. split.
  - intros H f Hf Hr. rewrite validateField_result. apply H.
    apply list_elem_of_In, list_elem_of_filter. done.
  - intros H f Hf. apply list_elem_of_In, list_elem_of_filter in Hf as [Hr Hf].
    specialize (H f Hf Hr). by rewrite validateField_result in H.
Qed.

End ValidateForm.

(** ** Submitting the form *)

Section Submit.

Lemma tokensRemove_idem ts cl :
  tokensRemove ts (tokensRemove ts cl) = tokensRemove ts cl.
Proof. unfold tokensRemove. by apply list_filter_filter_l. Qed.

Lemma tokensRemove_not_elem ts cl t : t ∈ ts -> t ∉ tokensRemove ts cl.
Proof.
  unfold tokensRemove. intros Ht H.
  apply list_elem_of_filter in H as [H _]. done.
Qed.

Lemma classesOf_setClasses cl st el :
  classesOf (setClasses cl st) el = default [] (cl !! el).
Proof. done. Qed.

(** The loop of [clearGroupMarkers] strips the tokens from the listed
    elements and from no other. *)
Lemma classListRemove_loop ts (groups : list nat) :
  ∀ st,
    let st' :=
      snd (forEach groups (fun group _ => classListRemove group ts) tt st) in
    (∃ cl, st' = setClasses cl st)
    ∧ ∀ el, classesOf st' el
            = if decide (el ∈ groups) then tokensRemove ts (classesOf st el)
              else classesOf st el.
Proof.
  induction groups as [|g groups IH]; intros st; cbn zeta.
  - simpl. split; [exists (classes st); by destruct st|].
    done.
  - cbn [forEach]. unfold bind at 1. unfold classListRemove at 1.
    unfold modify at 1.
    set (st1 := setClasses _ st).
    destruct (IH st1) as [[cl Hcl] Hel]. cbn zeta in Hcl, Hel.
    split; [exists cl; by rewrite Hcl|].
    intros el. rewrite Hel. unfold st1. rewrite classesOf_setClasses.
    destruct (decide (el = g)) as [->|Hne].
    + rewrite lookup_insert_eq. cbn [default].
      rewrite (decide_True (P := g ∈ g :: groups)) by apply list_elem_of_here.
      destruct (decide (g ∈ groups)); [apply tokensRemove_idem | done].
    + rewrite lookup_insert_ne by done. fold (classesOf st el).
      destruct (decide (el ∈ groups)) as [Hin|Hnin].
      * rewrite decide_True; [done | by apply list_elem_of_further].
      * rewrite decide_False; [done|].
        intros H. apply elem_of_cons in H as [?|?]; done.
Qed.

Lemma clearGroupMarkers_spec st :
  let st' := snd (clearGroupMarkers st) in
  (∃ cl, st' = setClasses cl st)
  ∧ ∀ el, el ∈ formGroups st ->
          classesOf st' el
          = tokensRemove [lit "focused"; lit "success"; lit "error"]
              (classesOf st el).
Proof.
  unfold clearGroupMarkers, bind, gets. cbn zeta.
  destruct (classListRemove_loop
              [lit "focused"; lit "success"; lit "error"] (formGroups st) st)
    as [Hcl Hel].
  cbn zeta in Hcl, Hel. split; [exact Hcl|].
  intros el Hin. rewrite Hel. by rewrite decide_True.
Qed.

(** Resetting the controls does not rename them. *)
Lemma exposes_formReset w st :
  exposes w (snd (formReset st)) = exposes w st.
Proof.
  unfold exposes, formReset, modify, setFields. cbn [snd fields exposed].
  by rewrite map_map.
Qed.

Lemma bind_eq {A B} (m : M A) (k : A -> M B) st :
  bind m k st = k (fst (m st)) (snd (m st)).
Proof. unfold bind. by destruct (m st). Qed.

(** [submitApplicationResumed] by cases on the two calls that can
    throw. *)
Lemma submitApplicationResumed_cases loader s :
  submitApplicationResumed loader s
  = let shown :=
      snd (showNotification (lit "success")
             (lit "Application Submitted Successfully!")
             (lit "Our recruitment team will contact you within 24 hours.")
             4000 (snd (hideLoader loader s))) in
    if exposes (lit "reset") s then submissionFailed loader shown
    else if exposes (lit "querySelectorAll") s
         then submissionFailed loader (snd (formReset shown))
         else clearGroupMarkers (resumedBeforeClear loader s).
Proof.
  unfold submitApplicationResumed. rewrite !bind_eq. cbn zeta.
  change (fst (gets (exposes (lit "reset")) _))
    with (exposes (lit "reset") s).
  destruct (exposes (lit "reset") s); [reflexivity|].
  rewrite !bind_eq. unfold gets at 1 2. cbn [fst snd].
  rewrite exposes_formReset.
  change (exposes (lit "querySelectorAll") _)
    with (exposes (lit "querySelectorAll") s).
  destruct (exposes (lit "querySelectorAll") s); reflexivity.
Qed.

Lemma submitApplicationResumed_unfold loader s :
  exposes (lit "reset") s = false ->
  exposes (lit "querySelectorAll") s = false ->
  submitApplicationResumed loader s
  = clearGroupMarkers (resumedBeforeClear loader s).
Proof.
  intros Hr Hq. rewrite submitApplicationResumed_cases. cbn zeta.
  by rewrite Hr, Hq.
Qed.

Lemma run_Detach_gone el st : attached el (snd (run (Detach el) st)) = false.
Proof.
  unfold run, bind, gets. destruct (attached el st) eqn:E; [|done].
  unfold removeChild, modify, attached. simpl.
  apply bool_decide_eq_false. intros H.
  apply list_elem_of_fmap in H as (e & -> & He).
  apply list_elem_of_filter in He as [He _]. done.
Qed.


Lemma handleFormSubmit_throws st :
  exposes (lit "querySelectorAll") st = true ->
  handleFormSubmit st = (Throw TypeError, st).
Proof.
  intros Hq. unfold handleFormSubmit. unfold bind at 1.
  by rewrite validateBusinessForm_throws.
Qed.

Lemma handleFormSubmit_valid st :
  exposes (lit "querySelectorAll") st = false ->
  forallb verdict (requiredFields st) = true ->
  ∃ cl,
    handleFormSubmit st
    = (Normal tt, snd (submitApplication (setClasses cl st))).
Proof.
  intros Hq Hval. unfold handleFormSubmit. unfold bind at 1.
  destruct (validateBusinessForm_result st Hq) as [Hres [cl Hst]].
  destruct (validateBusinessForm st) as [v st1].
  cbn [fst snd] in *. subst v st1. cbn [fst snd].
  rewrite Hval. by exists cl.
Qed.



(** C3 at its failing input: a form whose one required control is named
    [__proto__] and left empty.  No display name is registered for that
    identifier, so the message should fall back to it; the lookup
    [displayNames[fieldName]] finds the inherited member instead, and
    the one error notification reads [[object Object] is required or
    invalid.]  The rest of the claim holds there: no loader is shown
    and no submission is started. *)
Theorem submit_invalid_form_inherited_member :
  (∃ f, f ∈ fields inheritedNameApp ∧ required f = true
        ∧ fst (validateField f inheritedNameApp) = false)
  ∧ displayNames !! lit "__proto__" = None
  ∧ map errorMessage (requiredFields inheritedNameApp)
    = [lit "__proto__ is required or invalid."]
  ∧ body (snd (handleFormSubmit inheritedNameApp))
    = [mkElement 1 [lit "professional-notification"; lit "error"]
         (NotificationPanel (lit "error") (lit "Application Incomplete")
            (lit "[object Object] is required or invalid."))]
  ∧ loaders (snd (handleFormSubmit inheritedNameApp)) = []
  ∧ inFlight (snd (handleFormSubmit inheritedNameApp)) = 0%nat.
Proof.
  split.
  { exists (mkField (lit "__proto__") [] [] true 0).
    split; [apply list_elem_of_here | split; reflexivity]. }
  split; [by vm_compute|].
  split; [by vm_compute|].
  split; [by vm_compute|].
  split; by vm_compute.
Qed.

(** C4, as the source has it: on a form whose required fields are all
    Valid and none of whose listed elements shadows [querySelectorAll],
    a submit attempt returns normally, shows the loader and schedules
    the rest of the submission 2000 ms later; when that continuation
    runs on a page whose form shadows neither [reset] nor
    [querySelectorAll], it hides the loader (which leaves the page
    300 ms later), shows exactly one notification, the success
    notification, resets every control to its default value and strips
    the markers of every [form-group] element, so every control carried
    by such an element is Untouched. *)
Theorem submit_valid_form (st : App) :
  exposes (lit "querySelectorAll") st = false ->
  (∀ f, f ∈ fields st -> required f = true ->
        fst (validateField f st) = true) ->
  let st1 := snd (handleFormSubmit st) in
  let loader := nextId st in
  fst (handleFormSubmit st) = Normal tt
  ∧ body st1
    = body st
      ++ [mkElement loader [lit "professional-loader"]
            (LoaderPanel (lit "Processing your application..."))]
  ∧ timers st1 = timers st ++ [(2000, AfterDelay loader)]
  ∧ frames st1 = frames st ++ [AddShow loader]
  ∧ fields st1 = fields st
  ∧ exposes (lit "querySelectorAll") st1 = false
  ∧ ∀ s : App,
      exposes (lit "reset") s = false ->
      exposes (lit "querySelectorAll") s = false ->
      let s' := snd (run (AfterDelay loader) s) in
      body s'
      = map (onElement loader (tokensRemove [lit "show"])) (body s)
        ++ [mkElement (nextId s)
              [lit "professional-notification"; lit "success"]
              (NotificationPanel (lit "success")
                 (lit "Application Submitted Successfully!")
                 (lit "Our recruitment team will contact you within 24 hours."))]
      ∧ timers s'
        = timers s ++ [(300, Detach loader); (4000, AutoClose (nextId s))]
      ∧ attached loader (snd (run (Detach loader) s')) = false
      ∧ fields s' = map (fun f => setValue (defaultValue f) f) (fields s)
      ∧ (∀ f, f ∈ fields s' -> value f = defaultValue f)
      ∧ (∀ f, f ∈ fields s' -> defaultValue f = [] -> value f = [])
      ∧ (∀ el, el ∈ formGroups s ->
               classesOf s' el
               = tokensRemove [lit "focused"; lit "success"; lit "error"]
                   (classesOf s el))
      ∧ (∀ f, f ∈ fields s' -> parentElement f ∈ formGroups s ->
              validity s' f = Untouched).
Proof.
  intros Hq Hval. cbn zeta.
  apply all_required_valid in Hval.
  destruct (handleFormSubmit_valid st Hq Hval) as [cl ->].
  split; [done|]. split; [done|]. split; [done|]. split; [done|].
  split; [done|]. split; [exact Hq|].
  intros s Hsr Hsq. cbn [run].
  rewrite submitApplicationResumed_unfold by done.
  destruct (clearGroupMarkers_spec (resumedBeforeClear (nextId st) s))
    as [[cl' Hcl] Hel].
  cbn zeta in Hcl, Hel.
  set (s' := snd (clearGroupMarkers (resumedBeforeClear (nextId st) s))) in *.
  assert (Hfields :
    fields s' = map (fun f => setValue (defaultValue f) f) (fields s))
    by (by rewrite Hcl).
  assert (Hreset : ∀ f, f ∈ fields s' -> value f = defaultValue f).
  { intros f Hf. rewrite Hfields in Hf.
    apply list_elem_of_fmap in Hf as (g & -> & _). done. }
  split; [by rewrite Hcl|].
  split; [rewrite Hcl; cbn; by rewrite <- app_assoc|].
  split; [apply run_Detach_gone|].
  split; [exact Hfields|].
  split; [exact Hreset|].
  split; [intros f Hf Hd; by rewrite (Hreset f Hf)|].
  split; [exact Hel|].
  intros f Hf Hp. unfold validity. rewrite (Hel _ Hp).
  rewrite decide_False.
  2:{ apply tokensRemove_not_elem. set_solver. }
  rewrite decide_False; [done|].
  apply tokensRemove_not_elem. set_solver.
Qed.

Lemma submit_valid_form_witness :
  exposes (lit "querySelectorAll") filledApp = false
  ∧ (∀ f, f ∈ fields filledApp -> required f = true ->
          fst (validateField f filledApp) = true)
  ∧ exposes (lit "reset") submittingApp = false
  ∧ exposes (lit "querySelectorAll") submittingApp = false
  ∧ timers (snd (handleFormSubmit filledApp)) = [(2000, AfterDelay 1)]
  ∧ map panel (body (snd (run (AfterDelay 1) submittingApp)))
    = [LoaderPanel (lit "Processing your application...");
       NotificationPanel (lit "success")
         (lit "Application Submitted Successfully!")
         (lit "Our recruitment team will contact you within 24 hours.")].
Proof.
  assert (Hq : exposes (lit "querySelectorAll") filledApp = false)
    by reflexivity.
  assert (H : ∀ f, f ∈ fields filledApp -> required f = true ->
                   fst (validateField f filledApp) = true).
  { intros f Hf _. apply list_elem_of_singleton in Hf. subst f.
    reflexivity. }
  assert (Hsr : exposes (lit "reset") submittingApp = false)
    by reflexivity.
  assert (Hsq : exposes (lit "querySelectorAll") submittingApp = false)
    by reflexivity.
  pose proof (submit_valid_form filledApp Hq H) as T. cbn zeta in T.
  destruct T as (_ & _ & Ht & _ & _ & _ & Hrun).
  destruct (Hrun submittingApp Hsr Hsq) as (Hb & _).
  split; [exact Hq|]. split; [exact H|].
  split; [exact Hsr|]. split; [exact Hsq|].
  split; [exact Ht|].
  change (nextId filledApp) with 1%nat in Hb.
  by rewrite Hb.
Defined.

(** C4 as worded fails on a form whose required control has a default
    value: the field is Valid, and after the whole submission the control
    holds that default value instead of being empty. *)
Lemma submit_valid_form_keeps_defaults :
  (∀ f, f ∈ fields prefilledApp -> required f = true ->
        fst (validateField f prefilledApp) = true)
  ∧ ¬ Forall (fun f => value f = [])
        (fields (snd (run (AfterDelay (nextId prefilledApp))
                        (snd (handleFormSubmit prefilledApp))))).
Proof.
  split.
  - intros f Hf _. apply list_elem_of_singleton in Hf. subst f. reflexivity.
  - intros H. apply Forall_cons in H as [H _]. vm_compute in H. discriminate.
Qed.

(** C5, as the source has it: the controller keeps no submission state,
    so a submit attempt on a valid form is carried out whatever is in
    flight; it shows one more loader, schedules one more simulated
    submission and leaves the controls as they were, so the next attempt
    is carried out as well.  The one attempt that is not carried out is
    the one on a form that shadows [querySelectorAll]: validation
    throws, whether or not a submission is in flight, and the page is
    left as it was. *)
Theorem submit_again_while_in_flight (st : App) :
  (∀ f, f ∈ fields st -> required f = true ->
        fst (validateField f st) = true) ->
  let st' := snd (handleFormSubmit st) in
  (exposes (lit "querySelectorAll") st = false ->
   fst (handleFormSubmit st) = Normal tt
   ∧ length (loaders st') = S (length (loaders st))
   ∧ inFlight st' = S (inFlight st)
   ∧ fields st' = fields st
   ∧ exposes (lit "querySelectorAll") st' = false
   ∧ (∀ f, f ∈ fields st' -> required f = true ->
           fst (validateField f st') = true))
  ∧ (exposes (lit "querySelectorAll") st = true ->
     handleFormSubmit st = (Throw TypeError, st)).
Proof.
  intros Hval. cbn zeta. split; [|apply handleFormSubmit_throws].
  intros Hq.
  pose proof (proj2 (all_required_valid st) Hval) as Hall.
  destruct (handleFormSubmit_valid st Hq Hall) as [cl ->].
  assert (Hagain : ∀ s f, f ∈ fields st -> required f = true ->
                          fst (validateField f s) = true).
  { intros s f Hf Hr. rewrite validateField_result.
    specialize (Hval f Hf Hr). by rewrite validateField_result in Hval. }
  split; [done|].
  split; [|split; [|split; [done | split; [exact Hq | apply Hagain]]]].
  - unfold loaders. cbn. rewrite filter_app, length_app. cbn.
    rewrite decide_True by done. cbn. lia.
  - unfold inFlight. cbn. rewrite filter_app, length_app. cbn.
    rewrite decide_True by done. cbn. lia.
Qed.

Lemma submit_again_while_in_flight_witness :
  (∀ f, f ∈ fields submittingApp -> required f = true ->
        fst (validateField f submittingApp) = true)
  ∧ exposes (lit "querySelectorAll") submittingApp = false
  ∧ inFlight submittingApp = 1%nat
  ∧ inFlight (snd (handleFormSubmit submittingApp)) = 2%nat.
Proof.
  assert (Hq : exposes (lit "querySelectorAll") submittingApp = false)
    by reflexivity.
  assert (H : ∀ f, f ∈ fields submittingApp -> required f = true ->
                   fst (validateField f submittingApp) = true).
  { intros f Hf _. apply list_elem_of_singleton in Hf. subst f.
    reflexivity. }
  split; [exact H|]. split; [exact Hq|]. split; [reflexivity|].
  exact (proj1 (proj2 (proj2
    (proj1 (submit_again_while_in_flight submittingApp H) Hq)))).
Defined.

(** C5 as worded fails: after a first submit attempt one submission is
    in flight, and a second attempt adds a second loader and a second
    submission. *)
Lemma second_submit_not_ignored :
  inFlight (snd (handleFormSubmit filledApp)) = 1%nat
  ∧ ¬ (length (loaders (snd (handleFormSubmit
                               (snd (handleFormSubmit filledApp)))))
       = length (loaders (snd (handleFormSubmit filledApp)))
       ∧ inFlight (snd (handleFormSubmit (snd (handleFormSubmit filledApp))))
         = inFlight (snd (handleFormSubmit filledApp))).
Proof.
  split; [reflexivity|]. intros [H _]. vm_compute in H. discriminate.
Qed.

End Submit.

(** ** The modal and the Escape key *)

Section ModalClaims.

Lemma openModal_without_modal st : modal st = None -> openModal st = (tt, st).
Proof. intros H. unfold openModal, bind, gets. by rewrite H. Qed.

Lemma closeModal_without_modal st :
  modal st = None -> closeModal st = (tt, st).
Proof. intros H. unfold closeModal, bind, gets. by rewrite H. Qed.

Lemma onModalClick_without_modal b st :
  modal st = None -> onModalClick b st = Returned st.
Proof. intros H. unfold onModalClick. by rewrite H. Qed.

Lemma onKeydown_without_modal st :
  modal st = None -> onKeydown (lit "Escape") st = Thrown TypeError.
Proof. intros H. unfold onKeydown. by rewrite H. Qed.

(** C9 at its failing input: on a page without the application modal
    the Escape key makes the [keydown] listener throw, while [openModal],
    [closeModal] and the overlay listener leave such a page alone. *)
Theorem escape_without_modal_throws :
  modal blankApp = None
  ∧ onKeydown (lit "Escape") blankApp = Thrown TypeError
  ∧ openModal blankApp = (tt, blankApp)
  ∧ closeModal blankApp = (tt, blankApp)
  ∧ onModalClick true blankApp = Returned blankApp.
Proof. repeat split. Qed.

End ModalClaims.

(** ** The language toggle *)

Section Language.

Lemma includes_head a (p t : jsstring) : includes (a :: p) t = true -> a ∈ t.
Proof.
  induction t as [|b t IH]; [done|]. cbn [includes startsWith].
  intros H. apply orb_true_iff in H as [H|H].
  - apply andb_true_iff in H as [H _]. apply N.eqb_eq in H. subst b.
    apply list_elem_of_here.
  - apply list_elem_of_further. by apply IH.
Qed.

Lemma escapeUnit_no_tag c : 0x3C ∉ escapeUnit c.
Proof.
  unfold escapeUnit.
  destruct (c =? 0x26); [|destruct (c =? 0x3C) eqn:E;
    [|destruct (c =? 0x3E); [|destruct (c =? 0xA0)]]];
    intros H; apply list_elem_of_In in H; vm_compute in H;
    try (intuition discriminate).
  destruct H as [H|[]]. subst c. discriminate.
Qed.

Lemma escaped_no_tag s : 0x3C ∉ flat_map escapeUnit s.
Proof.
  induction s as [|c s IH]; simpl; [apply not_elem_of_nil|].
  intros H. apply elem_of_app in H as [H|H]; [|done].
  by apply (escapeUnit_no_tag c).
Qed.

(** A text node never serialises to markup with a highlight wrapper,
    unless its element is a raw-text host. *)
Lemma Text_no_highlight e s :
  content e = Text s -> isRawTextHost (tagName e) = false ->
  includes highlightOpen (innerHTML e) = false.
Proof.
  intros Hc Hraw. unfold innerHTML. rewrite Hc, Hraw.
  destruct (isVoidHost (tagName e)); [reflexivity|].
  apply not_true_is_false. intros H.
  apply (escaped_no_tag s).
  exact (includes_head 0x3C _ _ H).
Qed.

Lemma setContent_content e : setContent (content e) e = e.
Proof. by destruct e. Qed.

Lemma highlighted_includes_open l v :
  includes (phrase l) v = true ->
  includes highlightOpen (replace (phrase l) (highlight (phrase l)) v) = true.
Proof. intros H. unfold highlight. by apply includes_replace. Qed.

Lemma rewriteElement_eq l e :
  rewriteElement l e
  = if includes highlightOpen (innerHTML e)
    then setContent
           (Markup (replace (phrase l) (highlight (phrase l)) (payload l e))) e
    else setContent (Text (payload l e)) e.
Proof. by destruct l. Qed.

Lemma rewriteOption_eq l e :
  rewriteOption l e
  = if selectOption e then setContent (Text (payload l e)) e else e.
Proof. by destruct l. Qed.

Lemma rewritePlaceholder_Shows l c : ShowsPlaceholder l (rewritePlaceholder l c).
Proof.
  unfold ShowsPlaceholder, rewritePlaceholder. simpl.
  destruct l; [by destruct (enPlaceholder c) | by destruct (hiPlaceholder c)].
Qed.

(** One rewrite of a tagged element leaves it showing the language. *)
Lemma rewrite_Shows l e : Shows l (rewriteOption l (rewriteElement l e)).
Proof.
  rewrite rewriteOption_eq, rewriteElement_eq. unfold Shows.
  destruct (includes highlightOpen (innerHTML e));
    destruct e as [tg en hi c [] rp]; destruct l; simpl; auto.
Qed.

Lemma rewrite_option_Text l e :
  selectOption e = true ->
  content (rewriteOption l (rewriteElement l e)) = Text (payload l e).
Proof.
  intros H. rewrite rewriteOption_eq, rewriteElement_eq.
  destruct (includes highlightOpen (innerHTML e));
    destruct e as [tg en hi c o rp]; simpl in *; subst o; by destruct l.
Qed.

(** Rewriting to the other language and back restores an element that
    reflects the language. *)
Lemma rewrite_round_trip l e :
  Reflects l e ->
  rewriteOption l (rewriteElement l
    (rewriteOption (other l) (rewriteElement (other l) e))) = e.
Proof.
  intros [[Ht Hraw] | (Ho & Hm & Hl & Hother)].
  - rewrite (rewriteElement_eq (other l)).
    rewrite (Text_no_highlight e _ Ht Hraw).
    rewrite (rewriteOption_eq (other l)).
    assert (Hmid : ∀ e', content e' = Text (payload (other l) e) ->
                         tagName e' = tagName e -> reparse e' = reparse e ->
                         selectOption e' = selectOption e ->
                         dataEn e' = dataEn e -> dataHi e' = dataHi e ->
                         rewriteOption l (rewriteElement l e') = e).
    { intros e' Hc Htg Hrp Hs Hen Hhi.
      rewrite rewriteElement_eq.
      rewrite (Text_no_highlight e' _ Hc) by (by rewrite Htg).
      rewrite rewriteOption_eq.
      destruct e as [tg en hi c o rp], e' as [tg' en' hi' c' o' rp'], l;
        simpl in *; subst; by destruct o. }
    apply Hmid; destruct e as [tg en hi c [] rp], l; reflexivity.
  - unfold ReadsWrapper in Hl, Hother.
    rewrite <- Hm, setContent_content in Hl.
    rewrite (rewriteElement_eq (other l)), Hl.
    rewrite (rewriteOption_eq (other l)). cbn [setContent selectOption].
    rewrite Ho. fold (wrapped (other l) e).
    fold (setContent (Markup (wrapped (other l) e)) e).
    rewrite rewriteElement_eq, Hother.
    rewrite rewriteOption_eq. cbn [setContent selectOption]. rewrite Ho.
    unfold wrapped in Hm.
    destruct e as [tg en hi c o rp], l;
      cbn [payload content dataEn dataHi selectOption setContent tagName
           reparse] in *;
      by subst.
Qed.

Lemma rewritePlaceholder_round_trip l c :
  ShowsPlaceholder l c ->
  rewritePlaceholder l (rewritePlaceholder (other l) c) = c.
Proof.
  unfold ShowsPlaceholder, rewritePlaceholder. intros H.
  destruct c as [en hi p]. simpl in *. subst p.
  destruct l; simpl; [by destruct en | by destruct hi].
Qed.

(** The components of the page after one [toggle]. *)
Lemma toggle_fields pg :
  let l := other (currentLanguage pg) in
  currentLanguage (toggle pg) = l
  ∧ localStorage (toggle pg)
    = <[preferredLanguage := code l]> (localStorage pg)
  ∧ tagged (toggle pg)
    = map (rewriteOption l) (map (rewriteElement l) (tagged pg))
  ∧ controls (toggle pg) = map (rewritePlaceholder l) (controls pg).
Proof.
  unfold toggle, switchToHindi, switchToEnglish, updateButton.
  destruct pg as [[] sto calls tg ctl [lt|] dl [] tr]; simpl; done.
Qed.

(** C7, as the source has it: two toggles in a row return
    [currentLanguage] to its value and leave [preferredLanguage] stored
    as the code of that language; every tagged element, placeholder and
    option then shows that language; and on a page that was in step with
    the language state (storage held that code, all bilingual content
    reflected the language: plain text outside raw-text hosts, or
    highlighted markup from which the wrapper is read back in both
    languages) storage, tagged elements and placeholders are exactly as
    before. *)
Theorem toggle_twice (pg : Page) :
  let pg2 := toggle (toggle pg) in
  let l := currentLanguage pg in
  currentLanguage pg2 = l
  ∧ localStorage pg2 !! preferredLanguage = Some (code l)
  ∧ Forall (Shows l) (tagged pg2)
  ∧ Forall (ShowsPlaceholder l) (controls pg2)
  ∧ (InStep pg ->
     localStorage pg2 = localStorage pg
     ∧ tagged pg2 = tagged pg
     ∧ controls pg2 = controls pg).
Proof.
  cbn zeta.
  destruct (toggle_fields pg) as (Hc1 & Hs1 & Ht1 & Hp1).
  destruct (toggle_fields (toggle pg)) as (Hc2 & Hs2 & Ht2 & Hp2).
  cbn zeta in *. rewrite Hc1 in Hc2, Hs2, Ht2, Hp2.
  assert (Hoo : other (other (currentLanguage pg)) = currentLanguage pg)
    by (by destruct (currentLanguage pg)).
  rewrite Hoo in Hc2, Hs2, Ht2, Hp2.
  split; [exact Hc2|].
  split; [rewrite Hs2; apply lookup_insert_eq|].
  split.
  { rewrite Ht2. apply Forall_forall. intros e He.
    apply list_elem_of_fmap in He as (e1 & -> & He1).
    apply list_elem_of_fmap in He1 as (e0 & -> & _).
    apply rewrite_Shows. }
  split.
  { rewrite Hp2. apply Forall_forall. intros c Hc.
    apply list_elem_of_fmap in Hc as (c0 & -> & _).
    apply rewritePlaceholder_Shows. }
  intros (Hsto & Htag & Hctl). split; [|split].
  - rewrite Hs2, Hs1, insert_insert_eq. by apply insert_id.
  - rewrite Ht2, Ht1. rewrite !map_map.
    rewrite <- (map_id (tagged pg)) at 2.
    apply map_ext_Forall. eapply Forall_impl; [exact Htag|].
    intros e He. by apply rewrite_round_trip.
  - rewrite Hp2, Hp1. rewrite map_map.
    rewrite <- (map_id (controls pg)) at 2.
    apply map_ext_Forall. eapply Forall_impl; [exact Hctl|].
    intros c Hc. by apply rewritePlaceholder_round_trip.
Qed.

Lemma englishVisit_InStep : InStep englishVisit.
Proof.
  split; [reflexivity|]. split.
  - constructor; [left; split; reflexivity|]. constructor; [|constructor].
    right. repeat split; reflexivity.
  - constructor; [|constructor]. reflexivity.
Defined.

Lemma toggle_twice_witness :
  InStep englishVisit
  ∧ localStorage (toggle (toggle englishVisit)) = localStorage englishVisit
  ∧ tagged (toggle (toggle englishVisit)) = tagged englishVisit
  ∧ controls (toggle (toggle englishVisit)) = controls englishVisit.
Proof.
  split; [exact englishVisit_InStep|].
  exact (proj2 (proj2 (proj2 (proj2 (toggle_twice englishVisit))))
           englishVisit_InStep).
Defined.

(** C7 as worded fails on a first visit: nothing is stored under
    [preferredLanguage] before the two toggles, and ["en"] is stored
    after them. *)
Lemma toggle_twice_first_visit :
  ¬ (localStorage (toggle (toggle firstVisit)) !! preferredLanguage
     = localStorage firstVisit !! preferredLanguage).
Proof. intros H. vm_compute in H. discriminate. Qed.

(** C8: constructing the manager when ["hi"] is stored ends with
    [currentLanguage] Hindi, every tagged element, placeholder and option
    showing its Hindi content, and storage neither written nor changed;
    with any other stored value, or none, [currentLanguage] is English. *)
Theorem construct_reads_preference (pg : Page) :
  (localStorage pg !! preferredLanguage = Some (lit "hi") ->
   let pg' := construct pg in
   currentLanguage pg' = Hi
   ∧ Forall (Shows Hi) (tagged pg')
   ∧ Forall (ShowsPlaceholder Hi) (controls pg')
   ∧ (∀ e, e ∈ tagged pg' -> selectOption e = true ->
           content e = Text (dataHi e))
   ∧ setItemCalls pg' = setItemCalls pg
   ∧ localStorage pg' = localStorage pg)
  ∧ (localStorage pg !! preferredLanguage ≠ Some (lit "hi") ->
     currentLanguage (construct pg) = En
     ∧ setItemCalls (construct pg) = setItemCalls pg).
Proof.
  split.
  - intros Hhi. cbn zeta.
    assert (E : construct pg = switchToHindi (setCurrentLanguage En pg)).
    { unfold construct, init, savedLang. simpl. by rewrite Hhi. }
    rewrite E. clear E.
    assert (Ht : tagged (switchToHindi (setCurrentLanguage En pg))
                 = map (rewriteOption Hi) (map (rewriteElement Hi) (tagged pg)))
      by (unfold switchToHindi, updateButton; simpl;
          by destruct (langText pg)).
    assert (Hp : controls (switchToHindi (setCurrentLanguage En pg))
                 = map (rewritePlaceholder Hi) (controls pg))
      by (unfold switchToHindi, updateButton; simpl;
          by destruct (langText pg)).
    split; [unfold switchToHindi, updateButton; simpl;
            by destruct (langText pg)|].
    split.
    { rewrite Ht. apply Forall_forall. intros e He.
      apply list_elem_of_fmap in He as (e1 & -> & He1).
      apply list_elem_of_fmap in He1 as (e0 & -> & _).
      apply rewrite_Shows. }
    split.
    { rewrite Hp. apply Forall_forall. intros c Hc.
      apply list_elem_of_fmap in Hc as (c0 & -> & _).
      apply rewritePlaceholder_Shows. }
    split.
    { intros e He Ho. rewrite Ht in He.
      apply list_elem_of_fmap in He as (e1 & -> & He1).
      apply list_elem_of_fmap in He1 as (e0 & -> & _).
      assert (Ho0 : selectOption e0 = true).
      { rewrite rewriteOption_eq, rewriteElement_eq in Ho.
        destruct (includes highlightOpen (innerHTML e0));
          destruct e0 as [tg en hi c [] rp]; done. }
      rewrite (rewrite_option_Text Hi e0 Ho0).
      rewrite rewriteOption_eq, rewriteElement_eq.
      destruct (includes highlightOpen (innerHTML e0));
        destruct e0 as [tg en hi c [] rp]; done. }
    split; unfold switchToHindi, updateButton; simpl;
      by destruct (langText pg).
  - intros Hne.
    assert (E : construct pg = setCurrentLanguage En pg).
    { unfold construct, init, savedLang. simpl.
      destruct (localStorage pg !! preferredLanguage) as [v|] eqn:Ev; [|done].
      destruct (truthy v) eqn:Tv; [|done].
      unfold strictEq. rewrite bool_decide_eq_false_2; [done|].
      intros ->. by apply Hne. }
    by rewrite E.
Qed.

Lemma construct_reads_preference_witness :
  localStorage hindiVisit !! preferredLanguage = Some (lit "hi")
  ∧ currentLanguage (construct hindiVisit) = Hi
  ∧ Forall (Shows Hi) (tagged (construct hindiVisit))
  ∧ setItemCalls (construct hindiVisit) = setItemCalls hindiVisit.
Proof.
  assert (H : localStorage hindiVisit !! preferredLanguage = Some (lit "hi"))
    by reflexivity.
  split; [exact H|].
  pose proof (proj1 (construct_reads_preference hindiVisit) H) as R.
  cbn zeta in R.
  exact (conj (proj1 R)
           (conj (proj1 (proj2 R))
              (proj1 (proj2 (proj2 (proj2 (proj2 R))))))).
Defined.

End Language.

(** ** More on field validation *)

Section FieldExtras.

Lemma elem_of_tokensAdd (t x : jsstring) cl :
  x ∈ tokensAdd t cl <-> x = t ∨ x ∈ cl.
Proof.
  unfold tokensAdd. destruct (decide (t ∈ cl)) as [Hin|Hnin].
  - split; [by right | intros [->|H]; done].
  - rewrite elem_of_app, list_elem_of_singleton. tauto.
Qed.

Lemma elem_of_tokensRemove (ts : list jsstring) (x : jsstring) cl :
  x ∈ tokensRemove ts cl <-> (x ∉ ts) ∧ x ∈ cl.
Proof. unfold tokensRemove. by rewrite list_elem_of_filter. Qed.

Lemma tokensRemove_app ts cl1 cl2 :
  tokensRemove ts (cl1 ++ cl2) = tokensRemove ts cl1 ++ tokensRemove ts cl2.
Proof. unfold tokensRemove. apply filter_app. Qed.

Lemma tokensRemove_keeps ts cl :
  (∀ x, x ∈ cl -> x ∉ ts) -> tokensRemove ts cl = cl.
Proof.
  intros H. induction cl as [|c cl IH]; [done|].
  unfold tokensRemove in *. rewrite filter_cons.
  rewrite decide_True by (apply H; apply list_elem_of_here).
  f_equal. apply IH. intros x Hx. apply H. by apply list_elem_of_further.
Qed.

(** Adding a token that is among the removed ones is undone by the
    removal. *)
Lemma tokensRemove_tokensAdd ts t cl :
  t ∈ ts ->
  tokensRemove ts (tokensAdd t (tokensRemove ts cl)) = tokensRemove ts cl.
Proof.
  intros Ht. unfold tokensAdd.
  destruct (decide (t ∈ tokensRemove ts cl)) as [Hin|_].
  - by destruct (tokensRemove_not_elem ts cl t Ht).
  - rewrite tokensRemove_app, tokensRemove_idem.
    unfold tokensRemove at 2. rewrite filter_cons, decide_False by tauto.
    by rewrite filter_nil, app_nil_r.
Qed.

Lemma markerAfter_idem f cl : markerAfter f (markerAfter f cl) = markerAfter f cl.
Proof.
  unfold markerAfter. destruct (truthy (trim (value f))).
  - rewrite tokensRemove_tokensAdd; [done|].
    destruct (isValidFor _ _ _); set_solver.
  - by rewrite tokensRemove_idem.
Qed.

Lemma validateField_eq f st :
  validateField f st
  = (verdict f,
     setClasses (<[parentElement f :=
                     markerAfter f (classesOf st (parentElement f))]>
                   (classes st)) st).
Proof.
  rewrite <- validateField_state. unfold verdict.
  rewrite <- (validateField_result f st). by destruct (validateField f st).
Qed.

(** X1.  After [validateField] the field's marker matches the verdict,
    except that an empty (or blank) value leaves no marker at all: an
    empty required field is classified Invalid without being marked. *)
Theorem validateField_marker_matches (f : Field) (st : App) :
  validity (snd (validateField f st)) f = expectedValidity f.
Proof.
  rewrite validateField_eq. cbn [snd]. unfold validity, expectedValidity.
  rewrite classesOf_setClasses_insert. unfold markerAfter, verdict.
  set (cl := classesOf st (parentElement f)).
  assert (He : lit "error" ∉ tokensRemove [lit "error"; lit "success"] cl)
    by (apply tokensRemove_not_elem; set_solver).
  assert (Hs : lit "success" ∉ tokensRemove [lit "error"; lit "success"] cl)
    by (apply tokensRemove_not_elem; set_solver).
  destruct (truthy (trim (value f))).
  - destruct (isValidFor _ _ _).
    + rewrite decide_False.
      2:{ rewrite elem_of_tokensAdd. intros [H|H]; [discriminate H | done]. }
      rewrite decide_True; [done|]. apply elem_of_tokensAdd. by left.
    + rewrite decide_True; [done|]. apply elem_of_tokensAdd. by left.
  - by rewrite !decide_False.
Qed.

(** X2.  Validating a field a second time changes nothing: the verdict
    and the whole page are those of the first validation. *)
Theorem validateField_idempotent (f : Field) (st : App) :
  validateField f (snd (validateField f st)) = validateField f st.
Proof.
  rewrite !validateField_eq. cbn [snd]. f_equal.
  rewrite classesOf_setClasses_insert, markerAfter_idem.
  unfold setClasses. simpl. by rewrite insert_insert_eq.
Qed.

End FieldExtras.

(** ** More on aggregate validation *)

Section FormExtras.

Lemma no_invalid_iff (l : list Field) :
  forallb verdict l = true <-> filter (fun f => verdict f = false) l = [].
Proof.
  induction l as [|f l IH]; [done|].
  cbn [forallb]. rewrite filter_cons. destruct (verdict f) eqn:E.
  - rewrite decide_False by done. by rewrite andb_true_l.
  - rewrite decide_True by done. by rewrite andb_false_l.
Qed.

(** X3.  The flag and the list returned by [validateBusinessForm] agree:
    [isValid] holds exactly when [errors] is empty, and [errors] has one
    entry per required field that is Invalid.  It returns them unless a
    listed element shadows the form's [querySelectorAll]; then it
    throws and leaves the page as it was. *)
Theorem validateBusinessForm_flag_matches_errors (st : App) :
  match fst (validateBusinessForm st) with
  | Normal validation =>
      exposes (lit "querySelectorAll") st = false
      ∧ (fst validation = true <-> snd validation = [])
      ∧ length (snd validation)
        = length (filter (fun f => required f = true
                                   ∧ fst (validateField f st) = false)
                    (fields st))
  | Throw _ =>
      exposes (lit "querySelectorAll") st = true
      ∧ snd (validateBusinessForm st) = st
  end.
Proof.
  destruct (exposes (lit "querySelectorAll") st) eqn:Hq.
  - by rewrite (validateBusinessForm_throws st Hq).
  - destruct (validateBusinessForm_result st Hq) as [-> _].
    cbn [fst snd]. split; [done|]. split.
    + rewrite no_invalid_iff. split; [by intros ->|].
      intros H. by apply fmap_nil_inv in H.
    + by rewrite length_map, invalid_required_fields.
Qed.

Lemma checkRequired_loop_frame (el : nat) (l : list Field) :
  ∀ (acc : bool * list jsstring) (st : App),
    (∀ f, f ∈ l -> parentElement f ≠ el) ->
    classes (snd (forEach l checkRequired acc st)) !! el = classes st !! el.
Proof.
  induction l as [|f l IH]; intros acc st Hne; [done|].
  rewrite checkRequired_step, IH.
  - rewrite validateField_state. simpl.
    apply lookup_insert_ne, Hne, list_elem_of_here.
  - intros g Hg. apply Hne. by apply list_elem_of_further.
Qed.

(** X4.  Aggregate validation writes markers only on the elements that
    carry required fields: a control without the [required] attribute is
    not validated on submit, whatever its value, and the controls
    themselves are left as they are. *)
Theorem validateBusinessForm_skips_optional (st : App) (el : nat) :
  (∀ f, f ∈ fields st -> required f = true -> parentElement f ≠ el) ->
  classes (snd (validateBusinessForm st)) !! el = classes st !! el
  ∧ fields (snd (validateBusinessForm st)) = fields st.
Proof.
  intros Hne.
  destruct (exposes (lit "querySelectorAll") st) eqn:Hq.
  { by rewrite (validateBusinessForm_throws st Hq). }
  split.
  - unfold validateBusinessForm, bind, gets. rewrite Hq.
    pose proof (checkRequired_loop_frame el (requiredFields st) (true, [])
                  st) as H.
    destruct (forEach _ _ _ _) as [v st1]. cbn [snd] in *.
    apply H. intros f Hf.
    apply list_elem_of_filter in Hf as [Hr Hf]. by apply Hne.
  - destruct (validateBusinessForm_result st Hq) as [_ [cl ->]]. done.
Qed.

Lemma validateBusinessForm_skips_optional_witness :
  (∀ f, f ∈ fields optionalPhoneApp -> required f = true ->
        parentElement f ≠ 1%nat)
  ∧ fst (validateField (mkField (lit "phone") (lit "12345") [] false 1)
           optionalPhoneApp) = false
  ∧ classes (snd (validateBusinessForm optionalPhoneApp)) !! 1%nat
    = classes optionalPhoneApp !! 1%nat.
Proof.
  assert (H : ∀ f, f ∈ fields optionalPhoneApp -> required f = true ->
                   parentElement f ≠ 1%nat).
  { intros f Hf Hr. apply elem_of_cons in Hf as [->|Hf]; [discriminate|].
    apply list_elem_of_singleton in Hf. subst f. discriminate. }
  split; [exact H|]. split; [reflexivity|].
  exact (proj1 (validateBusinessForm_skips_optional optionalPhoneApp 1 H)).
Defined.

End FormExtras.

(** ** Notifications, the loader and the whole submission *)

Section LifeCycles.

Lemma fresh_not_listed (st : App) :
  Fresh st -> nextId st ∉ map uid (body st).
Proof.
  intros Hf H. apply list_elem_of_fmap in H as (e & He & Hin).
  specialize (Hf e Hin). lia.
Qed.

Lemma onElement_other el g (l : list Element) :
  el ∉ map uid l -> map (onElement el g) l = l.
Proof.
  induction l as [|e l IH]; [done|]. intros H. cbn [map].
  rewrite IH.
  2:{ intros Hin. apply H. cbn [map]. by apply list_elem_of_further. }
  f_equal. unfold onElement. rewrite decide_False; [done|].
  intros <-. apply H. cbn [map]. apply list_elem_of_here.
Qed.

Lemma filter_other el (l : list Element) :
  el ∉ map uid l -> filter (fun e => uid e ≠ el) l = l.
Proof.
  induction l as [|e l IH]; [done|]. intros H. rewrite filter_cons.
  rewrite decide_True.
  2:{ intros <-. apply H. cbn [map]. apply list_elem_of_here. }
  f_equal. apply IH. intros Hin. apply H. cbn [map].
  by apply list_elem_of_further.
Qed.

Lemma onElement_idem el ts (l : list Element) :
  map (onElement el (tokensRemove ts)) (map (onElement el (tokensRemove ts)) l)
  = map (onElement el (tokensRemove ts)) l.
Proof.
  rewrite map_map. apply map_ext. intros e. unfold onElement.
  destruct (decide (uid e = el)) as [E|E]; cbn [uid].
  - rewrite decide_True by done. cbn [uid classList panel].
    by rewrite tokensRemove_idem.
  - by rewrite decide_False.
Qed.

Lemma uid_onElement el g (l : list Element) :
  map uid (map (onElement el g) l) = map uid l.
Proof.
  rewrite map_map. apply map_ext. intros e. unfold onElement.
  by destruct (decide (uid e = el)).
Qed.

(** The removal timer leaves the page without the element, whether or
    not the element was still attached. *)
Lemma run_Detach_state el st :
  snd (run (Detach el) st)
  = setBody (filter (fun e => uid e ≠ el) (body st)) st.
Proof.
  unfold run, bind, gets. destruct (attached el st) eqn:E; [done|].
  cbn [ret snd]. apply bool_decide_eq_false in E.
  rewrite (filter_other el (body st) E). by destruct st.
Qed.

Lemma run_AutoClose_attached el st :
  attached el st = true -> run (AutoClose el) st = closeNotification el st.
Proof. intros H. unfold run, bind, gets. by rewrite H. Qed.

Lemma onElement_last el g (l : list Element) (e : Element) :
  el ∉ map uid l -> uid e = el ->
  map (onElement el g) (l ++ [e])
  = l ++ [mkElement (uid e) (g (classList e)) (panel e)].
Proof.
  intros Hn He. rewrite map_app, (onElement_other _ _ _ Hn). cbn [map].
  unfold onElement. by rewrite decide_True.
Qed.

Lemma filter_last el (l : list Element) (e : Element) :
  el ∉ map uid l -> uid e = el ->
  filter (fun e => uid e ≠ el) (l ++ [e]) = l.
Proof.
  intros Hn He. rewrite filter_app, (filter_other _ _ Hn), filter_cons.
  rewrite decide_False by (intros H; by apply H).
  by rewrite filter_nil, app_nil_r.
Qed.

(** X5.  A notification that is shown, painted, auto-dismissed and then
    removed leaves the page as it was before: the same children of the
    body, the same class lists and the same controls. *)
Theorem notification_life_cycle
    (type title message : jsstring) (duration : N) (st : App) :
  Fresh st ->
  let shown := showNotification type title message duration st in
  let painted := snd (run (AddShow (fst shown)) (snd shown)) in
  let dismissed := snd (run (AutoClose (fst shown)) painted) in
  let removed := snd (run (Detach (fst shown)) dismissed) in
  attached (fst shown) painted = true
  ∧ timers dismissed
    = timers st ++ [(duration, AutoClose (fst shown));
                    (300, Detach (fst shown))]
  ∧ body removed = body st
  ∧ classes removed = classes st
  ∧ fields removed = fields st.
Proof.
  intros Hf. cbn zeta. pose proof (fresh_not_listed st Hf) as Hn.
  change (fst (showNotification type title message duration st))
    with (nextId st).
  set (e := mkElement (nextId st) [lit "professional-notification"; type]
              (NotificationPanel type title message)).
  assert (Hb : body (snd (run (AddShow (nextId st))
                            (snd (showNotification type title message
                                    duration st))))
               = body st
                 ++ [mkElement (nextId st)
                       (tokensAdd (lit "show") (classList e)) (panel e)]).
  { cbn [run]. unfold elementClassAdd, modify. cbn [snd body setBody].
    change (body (snd (showNotification type title message duration st)))
      with (body st ++ [e]).
    by apply onElement_last. }
  set (painted := snd (run (AddShow (nextId st)) _)) in *.
  assert (Hatt : attached (nextId st) painted = true).
  { unfold attached. apply bool_decide_eq_true. rewrite Hb, map_app.
    apply elem_of_app. right. apply list_elem_of_here. }
  split; [exact Hatt|].
  rewrite run_Detach_state, (run_AutoClose_attached _ _ Hatt).
  unfold closeNotification, bind, elementClassRemove, setTimeout, modify.
  cbn [snd body timers classes fields setBody setTimers].
  rewrite Hb, onElement_last by done.
  rewrite filter_last by done.
  split; [|done]. subst painted. cbn. by rewrite <- app_assoc.
Qed.

Lemma notification_life_cycle_witness :
  Fresh filledApp
  ∧ body (snd (run (Detach 1)
                 (snd (run (AutoClose 1)
                         (snd (run (AddShow 1)
                                 (snd (showNotification (lit "info")
                                         (lit "Hello") (lit "Welcome") 4000
                                         filledApp))))))))
    = body filledApp.
Proof.
  assert (H : Fresh filledApp) by (intros e He; inversion He).
  split; [exact H|].
  exact (proj1 (proj2 (proj2
    (notification_life_cycle (lit "info") (lit "Hello") (lit "Welcome")
       4000 filledApp H)))).
Defined.

(** X6.  Once the removal timer of an element has run, its other timers
    do nothing: the auto-dismiss timer of a notification closed by hand
    changes nothing, and a second removal is not attempted. *)
Theorem timers_after_removal_do_nothing (el : nat) (st : App) :
  let removed := snd (run (Detach el) st) in
  run (AutoClose el) removed = (tt, removed)
  ∧ run (Detach el) removed = (tt, removed).
Proof.
  cbn zeta. pose proof (run_Detach_gone el st) as H.
  set (removed := snd (run (Detach el) st)) in *.
  unfold run, bind, gets. by rewrite H.
Qed.

(** X7.  Hiding the loader twice ends as hiding it once: after the
    removal timers have run, the children of the body are the same. *)
Theorem hideLoader_twice (loader : nat) (st : App) :
  let once := snd (run (Detach loader) (snd (hideLoader loader st))) in
  let twice :=
    snd (run (Detach loader)
           (snd (run (Detach loader)
                   (snd (hideLoader loader (snd (hideLoader loader st))))))) in
  body twice = body once
  ∧ attached loader twice = false
  ∧ classes twice = classes st ∧ fields twice = fields st.
Proof.
  cbn zeta. split; [|split; [apply run_Detach_gone|]].
  - rewrite !run_Detach_state. cbn.
    rewrite onElement_idem. by apply list_filter_filter_l.
  - by rewrite !run_Detach_state.
Qed.

(** X8.  On a form none of whose listed elements shadows [reset] or
    [querySelectorAll], a whole successful submission, once the loader's
    removal timer has run, leaves exactly one new child on the page, the
    success notification: the loader is gone and every loader and
    notification that was there before is still there, unchanged. *)
Theorem submission_life_cycle (st : App) :
  Fresh st ->
  exposes (lit "reset") st = false ->
  exposes (lit "querySelectorAll") st = false ->
  (∀ f, f ∈ fields st -> required f = true ->
        fst (validateField f st) = true) ->
  let loader := nextId st in
  let submitted := snd (handleFormSubmit st) in
  let resumed := snd (run (AfterDelay loader) submitted) in
  let settled := snd (run (Detach loader) resumed) in
  body settled
  = body st
    ++ [mkElement (S loader) [lit "professional-notification"; lit "success"]
          (NotificationPanel (lit "success")
             (lit "Application Submitted Successfully!")
             (lit "Our recruitment team will contact you within 24 hours."))]
  ∧ loaders settled = loaders st
  ∧ attached loader settled = false.
Proof.
  intros Hf Hr Hq Hval. cbn zeta. pose proof (fresh_not_listed st Hf) as Hn.
  apply all_required_valid in Hval.
  destruct (handleFormSubmit_valid st Hq Hval) as [cl ->]. cbn [snd].
  split; [|split; [|apply run_Detach_gone]].
  - rewrite run_Detach_state. cbn [run].
    rewrite submitApplicationResumed_unfold by (first [exact Hr | exact Hq]).
    destruct (clearGroupMarkers_spec
                (resumedBeforeClear (nextId st)
                   (snd (submitApplication (setClasses cl st)))))
      as [[cl' ->] _].
    cbn. rewrite map_app, (onElement_other _ _ _ Hn).
    rewrite !filter_app, (filter_other _ _ Hn).
    unfold onElement. cbn [map uid]. rewrite decide_True by done.
    rewrite !filter_cons. cbn [uid].
    rewrite decide_False by (intros H; by apply H).
    rewrite decide_True by lia.
    by rewrite !filter_nil, app_nil_r.
  - rewrite run_Detach_state. cbn [run].
    rewrite submitApplicationResumed_unfold by (first [exact Hr | exact Hq]).
    destruct (clearGroupMarkers_spec
                (resumedBeforeClear (nextId st)
                   (snd (submitApplication (setClasses cl st)))))
      as [[cl' ->] _].
    unfold loaders. cbn. rewrite map_app, (onElement_other _ _ _ Hn).
    rewrite !filter_app, (filter_other _ _ Hn).
    unfold onElement. cbn [map uid]. rewrite decide_True by done.
    rewrite !filter_cons. cbn [uid].
    rewrite decide_False by (intros H; by apply H).
    rewrite decide_True by lia.
    rewrite !filter_nil, app_nil_r. apply app_nil_r.
Qed.

Lemma submission_life_cycle_witness :
  Fresh filledApp
  ∧ exposes (lit "reset") filledApp = false
  ∧ exposes (lit "querySelectorAll") filledApp = false
  ∧ (∀ f, f ∈ fields filledApp -> required f = true ->
          fst (validateField f filledApp) = true)
  ∧ loaders (snd (run (Detach 1)
                    (snd (run (AfterDelay 1)
                            (snd (handleFormSubmit filledApp))))))
    = loaders filledApp.
Proof.
  assert (Hf : Fresh filledApp) by (intros e He; inversion He).
  assert (Hr : exposes (lit "reset") filledApp = false) by reflexivity.
  assert (Hq : exposes (lit "querySelectorAll") filledApp = false)
    by reflexivity.
  assert (H : ∀ f, f ∈ fields filledApp -> required f = true ->
                   fst (validateField f filledApp) = true).
  { intros f Hin _. apply list_elem_of_singleton in Hin. subst f.
    reflexivity. }
  split; [exact Hf|]. split; [exact Hr|]. split; [exact Hq|].
  split; [exact H|].
  exact (proj1 (proj2 (submission_life_cycle filledApp Hf Hr Hq H))).
Defined.

Lemma panel_onElement el g (l : list Element) :
  map panel (map (onElement el g) l) = map panel l.
Proof.
  rewrite map_map. apply map_ext. intros e. unfold onElement.
  by destruct (decide (uid e = el)).
Qed.

(** X27.  The failure path of a submission.  When the rest of
    [submitApplication] runs on a form one of whose listed elements
    shadows [reset] or [querySelectorAll], the success notification is
    shown first and the [catch] block then shows a second notification,
    Submission Failed; the loader is hidden twice; no marker is cleared;
    the controls keep their values when [reset] is the shadowed method
    and are reset when only [querySelectorAll] is. *)
Theorem submission_failure_path (loader : nat) (s : App) :
  exposes (lit "reset") s = true
  ∨ exposes (lit "querySelectorAll") s = true ->
  let s' := snd (run (AfterDelay loader) s) in
  map panel (body s')
  = map panel (body s)
    ++ [NotificationPanel (lit "success")
          (lit "Application Submitted Successfully!")
          (lit "Our recruitment team will contact you within 24 hours.");
        NotificationPanel (lit "error") (lit "Submission Failed")
          (lit "Please try again or contact support.")]
  ∧ timers s'
    = timers s
      ++ [(300, Detach loader); (4000, AutoClose (nextId s));
          (300, Detach loader); (4000, AutoClose (S (nextId s)))]
  ∧ classes s' = classes s
  ∧ fields s'
    = if exposes (lit "reset") s then fields s
      else map (fun f => setValue (defaultValue f) f) (fields s).
Proof.
  intros H. cbn zeta. cbn [run]. rewrite submitApplicationResumed_cases.
  cbn zeta.
  assert (Hpanels : ∀ b : list Element, ∀ x y : Element,
    map panel
      (map (onElement loader (tokensRemove [lit "show"]))
         (map (onElement loader (tokensRemove [lit "show"])) b ++ [x])
       ++ [y])
    = map panel b ++ [panel x; panel y]).
  { intros b x y. rewrite !map_app, !panel_onElement, <- app_assoc. done. }
  destruct (exposes (lit "reset") s) eqn:Hr.
  - cbn. rewrite Hpanels. cbn [panel].
    split; [done|]. split; [|done].
    by rewrite <- !app_assoc.
  - destruct H as [H|H]; [done|]. rewrite H.
    cbn. rewrite Hpanels. cbn [panel].
    split; [done|]. split; [|done].
    by rewrite <- !app_assoc.
Qed.

Lemma submission_failure_path_witness :
  (exposes (lit "reset") (snd (handleFormSubmit resetButtonApp)) = true
   ∨ exposes (lit "querySelectorAll")
       (snd (handleFormSubmit resetButtonApp)) = true)
  ∧ map panel
      (body (snd (run (AfterDelay 1)
                    (snd (handleFormSubmit resetButtonApp)))))
    = [LoaderPanel (lit "Processing your application...");
       NotificationPanel (lit "success")
         (lit "Application Submitted Successfully!")
         (lit "Our recruitment team will contact you within 24 hours.");
       NotificationPanel (lit "error") (lit "Submission Failed")
         (lit "Please try again or contact support.")].
Proof.
  assert (H : exposes (lit "reset") (snd (handleFormSubmit resetButtonApp))
              = true
              ∨ exposes (lit "querySelectorAll")
                  (snd (handleFormSubmit resetButtonApp)) = true)
    by (left; reflexivity).
  split; [exact H|].
  exact (proj1 (submission_failure_path 1
                  (snd (handleFormSubmit resetButtonApp)) H)).
Defined.

End LifeCycles.

(** ** The modal's life cycle *)

Section ModalExtras.

Lemma classListRemove_loop_state ts (groups : list nat) :
  ∀ st,
    snd (forEach groups (fun group _ => classListRemove group ts) tt st)
    = setClasses (strippedClasses ts groups (classes st)) st.
Proof.
  induction groups as [|g groups IH]; intros st.
  - by destruct st.
  - cbn [forEach]. unfold bind at 1. unfold classListRemove at 1.
    unfold modify at 1. by rewrite IH.
Qed.

Lemma clearGroupMarkers_state st :
  snd (clearGroupMarkers st)
  = setClasses (strippedClasses markers (formGroups st) (classes st)) st.
Proof.
  unfold clearGroupMarkers, bind, gets.
  apply (classListRemove_loop_state markers (formGroups st) st).
Qed.

Lemma strippedClasses_lookup ts (groups : list nat) :
  ∀ cls el,
    strippedClasses ts groups cls !! el
    = if decide (el ∈ groups)
      then Some (tokensRemove ts (default [] (cls !! el)))
      else cls !! el.
Proof.
  induction groups as [|g groups IH]; intros cls el; [done|].
  cbn [strippedClasses fold_left].
  change (fold_left _ groups ?c) with (strippedClasses ts groups c).
  rewrite IH. destruct (decide (el = g)) as [->|Hne].
  - rewrite lookup_insert_eq. cbn [default from_option id].
    rewrite (decide_True (P := g ∈ g :: groups)) by apply list_elem_of_here.
    destruct (decide (g ∈ groups)); [by rewrite tokensRemove_idem | done].
  - rewrite lookup_insert_ne by done.
    destruct (decide (el ∈ groups)) as [Hin|Hnin].
    + rewrite decide_True; [done | by apply list_elem_of_further].
    + rewrite decide_False; [done|].
      intros H. apply elem_of_cons in H as [?|?]; done.
Qed.

Lemma strippedClasses_idem ts groups cls :
  strippedClasses ts groups (strippedClasses ts groups cls)
  = strippedClasses ts groups cls.
Proof.
  apply map_eq. intros el. rewrite !strippedClasses_lookup.
  destruct (decide (el ∈ groups)); [|done].
  cbn [default from_option id]. by rewrite tokensRemove_idem.
Qed.

(** Stripping the markers does not change which elements are form
    groups. *)
Lemma formGroups_stripped st groups :
  formGroups (setClasses (strippedClasses markers groups (classes st)) st)
  = formGroups st.
Proof.
  unfold formGroups. cbn [formElements setClasses].
  apply list_filter_iff. intros el.
  rewrite classesOf_setClasses, strippedClasses_lookup. unfold classesOf.
  destruct (decide (el ∈ groups)); [|done].
  cbn [default from_option id]. rewrite elem_of_tokensRemove.
  split; [tauto|]. intros H. split; [|done].
  unfold markers. intros Hin.
  repeat (apply elem_of_cons in Hin as [Hin|Hin]; [discriminate Hin|]).
  by apply not_elem_of_nil in Hin.
Qed.

Lemma closeModalFinished_state s :
  snd (closeModalFinished s)
  = let s' := setBodyOverflow [] (setModal (hiddenModal <$> modal s) s) in
    match modal s with
    | Some m =>
        if containsForm m && negb (exposes (lit "querySelectorAll") s)
        then setClasses (strippedClasses markers (formGroups s) (classes s)) s'
        else s'
    | None => s'
    end.
Proof.
  unfold closeModalFinished, bind, onModal, modify, gets. cbn.
  destruct (modal s) as [m|]; cbn; [|done].
  unfold hiddenModal. destruct (containsForm m); [|done].
  change (exposes (lit "querySelectorAll") _)
    with (exposes (lit "querySelectorAll") s).
  destruct (exposes (lit "querySelectorAll") s); [done|].
  cbn [andb negb].
  pose proof (clearGroupMarkers_state
    (setBodyOverflow []
       (setModal
          (Some (mkModal (lit "none") (modalClass m) (hasInput m) true)) s)))
    as H.
  unfold clearGroupMarkers, bind, gets in H.
  destruct (forEach _ _ _ _) as [u s1]. cbn [snd] in *. exact H.
Qed.

Lemma run_ModalHide s : snd (run ModalHide s) = snd (closeModalFinished s).
Proof. cbn [run]. by rewrite bind_eq. Qed.

Lemma formGroups_ext s s' :
  formElements s' = formElements s -> classes s' = classes s ->
  formGroups s' = formGroups s.
Proof. intros He Hc. unfold formGroups, classesOf. by rewrite He, Hc. Qed.

Lemma formGroups_after_strip s s' groups :
  formElements s' = formElements s ->
  classes s' = strippedClasses markers groups (classes s) ->
  formGroups s' = formGroups s.
Proof.
  intros He Hc. rewrite <- (formGroups_stripped s groups).
  by apply formGroups_ext.
Qed.

(** What the end of the closing transition leaves of each part of the
    page. *)
Lemma closeModalFinished_parts s :
  let s' := snd (closeModalFinished s) in
  modal s' = hiddenModal <$> modal s
  ∧ bodyOverflow s' = []
  ∧ classes s' = classesAfterClose s
  ∧ formElements s' = formElements s
  ∧ fields s' = fields s ∧ body s' = body s ∧ timers s' = timers s.
Proof.
  cbn zeta. rewrite closeModalFinished_state. unfold classesAfterClose.
  cbn zeta. destruct (modal s) as [m|]; [|done].
  by destruct (containsForm m && negb (exposes (lit "querySelectorAll") s)).
Qed.

Lemma exposes_closeModalFinished w s :
  exposes w (snd (closeModalFinished s)) = exposes w s.
Proof.
  rewrite closeModalFinished_state. cbn zeta.
  destruct (modal s) as [m|]; [|done].
  by destruct (containsForm m && negb (exposes (lit "querySelectorAll") s)).
Qed.

Lemma exposes_closeModal w s : exposes w (snd (closeModal s)) = exposes w s.
Proof.
  unfold closeModal, bind, gets, onModal, modify, setTimeout.
  by destruct (modal s).
Qed.

Lemma closeModal_parts s :
  let s' := snd (closeModal s) in
  modal s' = deactivatedModal <$> modal s
  ∧ bodyOverflow s' = bodyOverflow s
  ∧ classes s' = classes s
  ∧ formElements s' = formElements s
  ∧ fields s' = fields s ∧ body s' = body s
  ∧ timers s' = match modal s with
                | Some _ => timers s ++ [(300, ModalHide)]
                | None => timers s
                end.
Proof.
  cbn zeta. unfold closeModal, bind, gets, onModal, modify, setTimeout.
  destruct (modal s) as [m|] eqn:E; cbn; rewrite ?E; done.
Qed.

(** X9.  When the closing transition ends the dialog is hidden and the
    page scrolls again; what the user typed stays in the controls, and
    when the modal holds the form and no listed element shadows the
    form's [querySelectorAll], every control carried by a [form-group]
    element is Untouched again; otherwise no class list changes. *)
Theorem closing_transition_ends (st : App) (m : Modal) :
  modal st = Some m ->
  let st' := snd (run ModalHide st) in
  modal st' = Some (hiddenModal m)
  ∧ bodyOverflow st' = []
  ∧ fields st' = fields st
  ∧ body st' = body st
  ∧ (containsForm m = true ->
     exposes (lit "querySelectorAll") st = false ->
     ∀ f, parentElement f ∈ formGroups st -> validity st' f = Untouched)
  ∧ (containsForm m = false ∨ exposes (lit "querySelectorAll") st = true ->
     classes st' = classes st).
Proof.
  intros Hm. cbn zeta. rewrite run_ModalHide.
  destruct (closeModalFinished_parts st)
    as (Hmod & Hov & Hcl & _ & Hfl & Hbd & _).
  cbn zeta in *. unfold classesAfterClose in Hcl. rewrite Hm in Hmod, Hcl.
  split; [exact Hmod|]. split; [exact Hov|]. split; [exact Hfl|].
  split; [exact Hbd|]. split.
  - intros Hcf Hq f Hf. rewrite Hcf, Hq in Hcl. cbn [andb negb] in Hcl.
    unfold validity, classesOf.
    rewrite Hcl, strippedClasses_lookup.
    rewrite (decide_True (P := parentElement f ∈ formGroups st)) by done.
    cbn [default from_option id].
    rewrite !decide_False; [done | |];
      apply tokensRemove_not_elem; unfold markers; set_solver.
  - intros [Hcf|Hq]; [by rewrite Hcf in Hcl|].
    rewrite Hq, andb_false_r in Hcl. exact Hcl.
Qed.

Lemma closing_transition_ends_witness :
  modal modalApp = Some (mkModal [] [lit "modal"] true true)
  ∧ validity modalApp (mkField (lit "email") (lit "a@b.c") [] true 0) = Valid
  ∧ validity (snd (run ModalHide modalApp))
      (mkField (lit "email") (lit "a@b.c") [] true 0) = Untouched
  ∧ fields (snd (run ModalHide modalApp)) = fields modalApp.
Proof.
  split; [reflexivity|]. split; [reflexivity|].
  pose proof (closing_transition_ends modalApp
                (mkModal [] [lit "modal"] true true) eq_refl) as R.
  cbn zeta in R. split.
  - apply (proj1 (proj2 (proj2 (proj2 (proj2 R)))) eq_refl eq_refl).
    apply list_elem_of_filter. split; [|apply list_elem_of_here].
    apply list_elem_of_here.
  - exact (proj1 (proj2 (proj2 R))).
Defined.

(** X10.  Closing the modal twice in a row ends as closing it once: once
    the scheduled transitions have ended, the dialog, the page scroll,
    the class lists, the controls and the children of the body are the
    same. *)
Theorem closeModal_twice (st : App) :
  let once := snd (run ModalHide (snd (closeModal st))) in
  let twice :=
    snd (run ModalHide
           (snd (run ModalHide (snd (closeModal (snd (closeModal st))))))) in
  modal twice = modal once
  ∧ bodyOverflow twice = bodyOverflow once
  ∧ classes twice = classes once
  ∧ fields twice = fields once
  ∧ body twice = body once.
Proof.
  cbn zeta. rewrite !run_ModalHide.
  set (s1 := snd (closeModal st)).
  set (s2 := snd (closeModal s1)).
  set (s3 := snd (closeModalFinished s2)).
  assert (Q1 : exposes (lit "querySelectorAll") s1
               = exposes (lit "querySelectorAll") st)
    by apply exposes_closeModal.
  assert (Q2 : exposes (lit "querySelectorAll") s2
               = exposes (lit "querySelectorAll") st)
    by (unfold s2; by rewrite exposes_closeModal).
  assert (Q3 : exposes (lit "querySelectorAll") s3
               = exposes (lit "querySelectorAll") st)
    by (unfold s3; by rewrite exposes_closeModalFinished).
  destruct (closeModal_parts st) as (M1 & O1 & C1 & E1 & F1 & B1 & _).
  destruct (closeModal_parts s1) as (M2 & O2 & C2 & E2 & F2 & B2 & _).
  destruct (closeModalFinished_parts s1) as (Mo & Oo & Co & Eo & Fo & Bo & _).
  destruct (closeModalFinished_parts s2) as (M3 & O3 & C3 & E3 & F3 & B3 & _).
  destruct (closeModalFinished_parts s3) as (M4 & O4 & C4 & E4 & F4 & B4 & _).
  cbn zeta in *. fold s1 in M1, O1, C1, E1, F1, B1.
  fold s2 in M2, O2, C2, E2, F2, B2. fold s3 in M3, O3, C3, E3, F3, B3.
  assert (G1 : formGroups s1 = formGroups st)
    by (apply formGroups_ext; congruence).
  assert (G2 : formGroups s2 = formGroups st)
    by (apply formGroups_ext; congruence).
  split; [|split; [congruence|split; [|split; congruence]]].
  - rewrite M4, Mo, M3, M2, M1. destruct (modal st) as [m|]; [|done].
    unfold hiddenModal, deactivatedModal. cbn -[tokensRemove].
    by rewrite tokensRemove_idem.
  - rewrite C4, Co. unfold classesAfterClose in *.
    rewrite M3, M2, M1 in *. rewrite Q3, Q1, G1.
    rewrite Q2, G2, C2, C1 in C3.
    destruct (modal st) as [m|]; [|cbn in *; congruence].
    cbn in *.
    destruct (containsForm m && negb (exposes (lit "querySelectorAll") st));
      [|congruence].
    rewrite C3, C1.
    rewrite (formGroups_after_strip st s3 (formGroups st)); [|congruence|done].
    apply strippedClasses_idem.
Qed.

Lemma tokensRemove_after_add t cl :
  t ∉ cl -> tokensRemove [t] (tokensAdd t cl) = cl.
Proof.
  intros Hn. unfold tokensAdd. rewrite decide_False by done.
  rewrite tokensRemove_app. unfold tokensRemove at 2.
  rewrite filter_cons, decide_False by set_solver.
  rewrite filter_nil, app_nil_r. apply tokensRemove_keeps.
  intros x Hx Hin. apply list_elem_of_singleton in Hin. by subst x.
Qed.

Lemma openModal_parts s :
  let s' := snd (openModal s) in
  modal s' = shownModal <$> modal s
  ∧ bodyOverflow s' = match modal s with
                      | Some _ => lit "hidden"
                      | None => bodyOverflow s
                      end
  ∧ fields s' = fields s.
Proof.
  cbn zeta.
  unfold openModal, bind, gets, onModal, modify, requestAnimationFrame,
    setTimeout, shownModal.
  destruct (modal s) as [m|] eqn:E; cbn; rewrite ?E; [|done].
  destruct (hasInput m) eqn:Hi; cbn; rewrite ?Hi; done.
Qed.

Lemma activate_parts s :
  let s' := snd (run ModalActivate s) in
  modal s' = activatedModal <$> modal s
  ∧ bodyOverflow s' = bodyOverflow s
  ∧ fields s' = fields s.
Proof. done. Qed.

(** X11.  Opening the modal, letting its opening frame run, closing it
    and letting the closing transition end gives back the modal's class
    list and releases the page scroll; in between the dialog is
    displayed, active, and the page scroll is locked. *)
Theorem modal_open_close_cycle (st : App) (m : Modal) :
  modal st = Some m -> lit "active" ∉ modalClass m ->
  let opened := snd (run ModalActivate (snd (openModal st))) in
  let closed := snd (run ModalHide (snd (closeModal opened))) in
  modal opened
  = Some (mkModal (lit "block") (modalClass m ++ [lit "active"])
            (hasInput m) (containsForm m))
  ∧ bodyOverflow opened = lit "hidden"
  ∧ modal closed = Some (hiddenModal m)
  ∧ bodyOverflow closed = []
  ∧ fields closed = fields st.
Proof.
  intros Hm Hna. cbn zeta.
  assert (Hopen : modal (snd (run ModalActivate (snd (openModal st))))
                  = Some (mkModal (lit "block")
                            (modalClass m ++ [lit "active"])
                            (hasInput m) (containsForm m))
                  ∧ bodyOverflow (snd (run ModalActivate (snd (openModal st))))
                    = lit "hidden"
                  ∧ fields (snd (run ModalActivate (snd (openModal st))))
                    = fields st).
  { destruct (openModal_parts st) as (M0 & O0 & F0).
    destruct (activate_parts (snd (openModal st))) as (Ma & Oa & Fa).
    cbn zeta in *. rewrite Hm in M0, O0.
    rewrite Ma, Oa, Fa, M0, O0, F0.
    unfold activatedModal, shownModal. cbn -[tokensAdd].
    unfold tokensAdd. by rewrite decide_False. }
  destruct Hopen as (Hmo & Hoo & Hfo).
  split; [exact Hmo|]. split; [exact Hoo|].
  set (opened := snd (run ModalActivate (snd (openModal st)))) in *.
  rewrite run_ModalHide.
  destruct (closeModal_parts opened) as (M1 & _ & _ & _ & F1 & _).
  destruct (closeModalFinished_parts (snd (closeModal opened)))
    as (M2 & O2 & _ & _ & F2 & _).
  cbn zeta in *.
  split; [|split; [exact O2 | congruence]].
  rewrite M2, M1, Hmo. unfold hiddenModal, deactivatedModal.
  cbn -[tokensRemove]. f_equal. f_equal.
  change (modalClass m ++ [lit "active"])
    with (modalClass m ++ [lit "active"]).
  rewrite <- (tokensRemove_after_add (lit "active") (modalClass m) Hna) at 2.
  unfold tokensAdd. by rewrite decide_False.
Qed.

Lemma modal_open_close_cycle_witness :
  modal modalApp = Some (mkModal [] [lit "modal"] true true)
  ∧ (lit "active" ∉ [lit "modal"])
  ∧ modal (snd (run ModalHide
                  (snd (closeModal
                          (snd (run ModalActivate (snd (openModal modalApp)))))))
          )
    = Some (mkModal (lit "none") [lit "modal"] true true).
Proof.
  assert (Hn : lit "active" ∉ [lit "modal"]).
  { intros H. apply list_elem_of_singleton in H. discriminate H. }
  split; [reflexivity|]. split; [exact Hn|].
  exact (proj1 (proj2 (proj2
    (modal_open_close_cycle modalApp (mkModal [] [lit "modal"] true true)
       eq_refl Hn)))).
Defined.

(** X12.  The [keydown] listener throws in exactly one situation, the
    Escape key on a page without the modal; any other key leaves the
    page alone; and Escape on a modal whose inline [display] is not
    ['none'], a modal that was never opened included, starts the closing
    transition. *)
Theorem onKeydown_outcomes (key : jsstring) (st : App) :
  (onKeydown key st = Thrown TypeError
   <-> key = lit "Escape" ∧ modal st = None)
  ∧ (key ≠ lit "Escape" -> onKeydown key st = Returned st)
  ∧ (∀ m, key = lit "Escape" -> modal st = Some m ->
          display m ≠ lit "none" ->
          ∃ st', onKeydown key st = Returned st'
                 ∧ timers st' = timers st ++ [(300, ModalHide)]
                 ∧ modal st' = Some (deactivatedModal m)).
Proof.
  unfold onKeydown, strictEq. split; [|split].
  - destruct (decide (key = lit "Escape")) as [->|Hne].
    + rewrite bool_decide_eq_true_2 by done.
      destruct (modal st) as [m|]; [|done].
      split; [|by intros [_ ?]].
      by destruct (negb (bool_decide (display m = lit "none"))).
    + rewrite bool_decide_eq_false_2 by done.
      split; [done | by intros [? _]].
  - intros Hne. by rewrite bool_decide_eq_false_2.
  - intros m -> Hm Hd. rewrite bool_decide_eq_true_2 by done.
    rewrite Hm. rewrite (bool_decide_eq_false_2 _ Hd). cbn [negb].
    eexists. split; [done|].
    destruct (closeModal_parts st) as (M1 & _ & _ & _ & _ & _ & T1).
    cbn zeta in *. rewrite Hm in M1, T1. done.
Qed.

Lemma onKeydown_outcomes_witness :
  lit "Enter" ≠ lit "Escape"
  ∧ onKeydown (lit "Enter") blankApp = Returned blankApp
  ∧ ∃ st', onKeydown (lit "Escape") modalApp = Returned st'
           ∧ timers st' = timers modalApp ++ [(300, ModalHide)]
           ∧ modal st'
             = Some (deactivatedModal (mkModal [] [lit "modal"] true true)).
Proof.
  assert (Hne : lit "Enter" ≠ lit "Escape") by discriminate.
  split; [exact Hne|]. split.
  - exact (proj1 (proj2 (onKeydown_outcomes (lit "Enter") blankApp)) Hne).
  - apply (proj2 (proj2 (onKeydown_outcomes (lit "Escape") modalApp))
             (mkModal [] [lit "modal"] true true) eq_refl eq_refl).
    discriminate.
Defined.

End ModalExtras.

(** ** The mobile navigation drawer *)

Section MenuExtras.

(** X13.  Whatever state the drawer was in, a toggle leaves its parts in
    agreement (navigation class, overlay, icon, page scroll lock and the
    [isOpen] flag all say open, or all say closed) and flips [isOpen];
    on a page without the navigation element nothing changes at all. *)
Theorem menu_toggle_agrees (m : Menu.Manager) (st : App) :
  Agrees (fst (Menu.toggle m st)) (snd (Menu.toggle m st))
  ∧ (Menu.nav m ≠ None ->
     Menu.isOpen (fst (Menu.toggle m st)) = negb (Menu.isOpen m))
  ∧ (Menu.nav m = None -> Menu.toggle m st = (m, st)).
Proof.
  unfold Menu.toggle, Menu.close, Menu.open, Agrees.
  destruct m as [[cl|] [] op vis [ic|]]; cbn -[tokensAdd tokensRemove];
    (split; [|split; [done | try done; by intros H]]);
    intros cl' Hcl; try discriminate Hcl;
    injection Hcl as <-;
    repeat split; try done;
    try (apply tokensRemove_not_elem; set_solver);
    try (apply elem_of_tokensAdd; by left);
    try (intros i Hi; by injection Hi as <-).
Qed.

Lemma menu_toggle_agrees_witness :
  Menu.nav drawer ≠ None
  ∧ Menu.isOpen (fst (Menu.toggle drawer blankApp)) = true
  ∧ Menu.toggle drawerWithoutNav blankApp = (drawerWithoutNav, blankApp).
Proof.
  assert (H : Menu.nav drawer ≠ None) by discriminate.
  split; [exact H|]. split.
  - exact (proj1 (proj2 (menu_toggle_agrees drawer blankApp)) H).
  - exact (proj2 (proj2 (menu_toggle_agrees drawerWithoutNav blankApp))
             eq_refl).
Defined.

(** X14.  Opening the drawer and closing it again restores a closed
    drawer whose parts agreed, and the page, exactly. *)
Theorem menu_toggle_twice (m : Menu.Manager) (st : App) :
  Menu.isOpen m = false -> Agrees m st ->
  let first := Menu.toggle m st in
  Menu.toggle (fst first) (snd first) = (m, st).
Proof.
  intros Hopen Hag. cbn zeta.
  unfold Menu.toggle. rewrite Hopen. unfold Menu.open.
  destruct m as [[cl|] o op vis ic]; cbn in Hopen; subst o;
    cbn -[tokensAdd tokensRemove]; [|done].
  destruct (Hag cl eq_refl) as (Hn & Hop & Hvis & Ho & Hi).
  cbn in Hn, Hop, Hvis, Ho, Hi. subst op vis.
  rewrite (tokensRemove_after_add _ _ Hn).
  f_equal.
  - f_equal. destruct ic as [i|]; [|done]. by rewrite (Hi i eq_refl).
  - destruct st. cbn in *. by subst.
Qed.

Lemma menu_toggle_twice_witness :
  Menu.isOpen drawer = false
  ∧ Agrees drawer blankApp
  ∧ Menu.toggle (fst (Menu.toggle drawer blankApp))
      (snd (Menu.toggle drawer blankApp))
    = (drawer, blankApp).
Proof.
  assert (Ha : Agrees drawer blankApp).
  { intros cl Hcl. injection Hcl as <-. cbn.
    repeat split; try reflexivity.
    - intros H. apply list_elem_of_singleton in H. discriminate H.
    - intros i Hi. by injection Hi as <-. }
  split; [reflexivity|]. split; [exact Ha|].
  exact (menu_toggle_twice drawer blankApp eq_refl Ha).
Defined.

(** X15.  The drawer and the modal lock the page scroll through the same
    style property and neither remembers the other: closing the drawer
    while the modal is open releases the page scroll although the dialog
    is still displayed. *)
Theorem menu_close_releases_modal_scroll_lock
    (m : Menu.Manager) (cl : list jsstring) (dialog : Modal) (st : App) :
  Menu.nav m = Some cl -> modal st = Some dialog ->
  let opened := snd (openModal st) in
  let drawerOpened := Menu.open m opened in
  let drawerClosed := Menu.close (fst drawerOpened) (snd drawerOpened) in
  bodyOverflow opened = lit "hidden"
  ∧ (display <$> modal (snd drawerClosed)) = Some (lit "block")
  ∧ bodyOverflow (snd drawerClosed) = [].
Proof.
  intros Hn Hm. cbn zeta.
  unfold Menu.close, Menu.open, openModal, bind, gets, onModal, modify,
    requestAnimationFrame, setTimeout.
  rewrite Hn, Hm. cbn -[tokensAdd tokensRemove]. rewrite Hm.
  by destruct (hasInput dialog).
Qed.

Lemma menu_close_releases_modal_scroll_lock_witness :
  Menu.nav drawer = Some [lit "nav"]
  ∧ modal modalApp = Some (mkModal [] [lit "modal"] true true)
  ∧ bodyOverflow
      (snd (Menu.close
              (fst (Menu.open drawer (snd (openModal modalApp))))
              (snd (Menu.open drawer (snd (openModal modalApp))))))
    = [].
Proof.
  split; [reflexivity|]. split; [reflexivity|].
  exact (proj2 (proj2
    (menu_close_releases_modal_scroll_lock drawer [lit "nav"]
       (mkModal [] [lit "modal"] true true) modalApp eq_refl eq_refl))).
Defined.

End MenuExtras.

(** ** More on the language toggle *)

Section LanguageExtras.

Lemma toggle_records pg :
  let l := other (currentLanguage pg) in
  documentLang (toggle pg) = code l
  ∧ setItemCalls (toggle pg) = setItemCalls pg ++ [(preferredLanguage, code l)]
  ∧ langText (toggle pg) = (fun _ => advertised l) <$> langText pg
  ∧ tracked (toggle pg)
    = (if appPresent pg
       then tracked pg ++ [(lit "Language", lit "Switch")]
       else tracked pg).
Proof.
  unfold toggle, switchToHindi, switchToEnglish, updateButton.
  destruct pg as [[] sto calls tg ctl [lt|] dl [] tr]; simpl; done.
Qed.

(** X16.  After a toggle the records of the language agree: the
    document's [lang] attribute and the stored preference both hold the
    code of the new [currentLanguage], exactly one [setItem] call was
    made, and the button, when the page has one, advertises the other
    language. *)
Theorem toggle_keeps_records_in_step (pg : Page) :
  let pg' := toggle pg in
  let l := currentLanguage pg' in
  l = other (currentLanguage pg)
  ∧ documentLang pg' = code l
  ∧ localStorage pg' !! preferredLanguage = Some (code l)
  ∧ setItemCalls pg' = setItemCalls pg ++ [(preferredLanguage, code l)]
  ∧ langText pg' = (fun _ => advertised l) <$> langText pg.
Proof.
  cbn zeta.
  destruct (toggle_fields pg) as (Hc & Hs & _).
  destruct (toggle_records pg) as (Hd & Hi & Hb & _).
  cbn zeta in *. rewrite Hc.
  split; [done|]. split; [done|].
  split; [rewrite Hs; apply lookup_insert_eq|]. done.
Qed.

(** X17.  The preference survives a reload: a manager constructed on any
    page whose storage holds what a toggle stored starts in the language
    that toggle switched to. *)
Theorem reload_restores_language (pg reloaded : Page) :
  localStorage reloaded !! preferredLanguage
  = localStorage (toggle pg) !! preferredLanguage ->
  currentLanguage (construct reloaded) = currentLanguage (toggle pg).
Proof.
  intros H.
  destruct (toggle_fields pg) as (Hc & Hs & _). cbn zeta in *.
  rewrite Hs, lookup_insert_eq in H. rewrite Hc.
  unfold construct, init, savedLang. cbn [localStorage setCurrentLanguage].
  rewrite H.
  destruct (currentLanguage pg); cbn [other code].
  - unfold switchToHindi, updateButton. cbn.
    change (strictEq (lit "hi") (lit "hi")) with true.
    by destruct (langText reloaded).
  - cbn. change (strictEq (lit "en") (lit "hi")) with false. done.
Qed.

Lemma reload_restores_language_witness :
  localStorage (toggle englishVisit) !! preferredLanguage
  = localStorage (toggle firstVisit) !! preferredLanguage
  ∧ currentLanguage (construct (toggle englishVisit)) = Hi.
Proof.
  assert (H : localStorage (toggle englishVisit) !! preferredLanguage
              = localStorage (toggle firstVisit) !! preferredLanguage)
    by reflexivity.
  split; [exact H|].
  exact (reload_restores_language firstVisit (toggle englishVisit) H).
Defined.

Lemma rewrite_Text l e :
  isText e -> isRawTextHost (tagName e) = false ->
  content (rewriteOption l (rewriteElement l e)) = Text (payload l e).
Proof.
  intros [s Hs] Hraw. rewrite rewriteOption_eq, rewriteElement_eq.
  rewrite (Text_no_highlight e s Hs Hraw).
  destruct e as [tg en hi c [] rp]; by destruct l.
Qed.

Lemma payload_rewrite l l' e :
  payload l' (rewriteOption l (rewriteElement l e)) = payload l' e.
Proof.
  rewrite rewriteOption_eq, rewriteElement_eq.
  destruct (includes highlightOpen (innerHTML e));
    destruct e as [tg en hi c [] rp]; by destruct l, l'.
Qed.

Lemma tagName_rewrite l e :
  tagName (rewriteOption l (rewriteElement l e)) = tagName e.
Proof.
  rewrite rewriteOption_eq, rewriteElement_eq.
  destruct (includes highlightOpen (innerHTML e));
    by destruct e as [tg en hi c [] rp].
Qed.

(** X18.  On a page whose tagged elements are all plain text and none of
    them a raw-text host, a toggle writes every payload as text:
    afterwards each element is a text node holding its payload for the
    new language, whatever characters the payload contains, and this
    stays so however often the language is switched. *)
Theorem plain_elements_stay_plain (pg : Page) :
  Forall isText (tagged pg) ->
  Forall (fun e => isRawTextHost (tagName e) = false) (tagged pg) ->
  Forall (fun e => content e = Text (payload (currentLanguage (toggle pg)) e))
    (tagged (toggle pg))
  ∧ ∀ n, Forall isText (tagged (Nat.iter n toggle pg)).
Proof.
  assert (Hstep : ∀ p,
            Forall isText (tagged p) ->
            Forall (fun e => isRawTextHost (tagName e) = false) (tagged p) ->
            Forall (fun e => content e
                             = Text (payload (currentLanguage (toggle p)) e))
              (tagged (toggle p))
            ∧ Forall (fun e => isRawTextHost (tagName e) = false)
                (tagged (toggle p))).
  { intros p Hp Hr. destruct (toggle_fields p) as (Hc & _ & Ht & _).
    cbn zeta in *. rewrite Hc, Ht, map_map. split.
    - apply Forall_forall. intros e He.
      apply list_elem_of_fmap in He as (e0 & -> & He0).
      rewrite payload_rewrite.
      apply rewrite_Text; [by apply (proj1 (Forall_forall _ _) Hp)|].
      by apply (proj1 (Forall_forall _ _) Hr).
    - apply Forall_forall. intros e He.
      apply list_elem_of_fmap in He as (e0 & -> & He0).
      rewrite tagName_rewrite. by apply (proj1 (Forall_forall _ _) Hr). }
  intros Hp Hr. split; [by apply Hstep|].
  assert (Hall : ∀ n,
            Forall isText (tagged (Nat.iter n toggle pg))
            ∧ Forall (fun e => isRawTextHost (tagName e) = false)
                (tagged (Nat.iter n toggle pg))).
  { induction n as [|n [IHt IHr]]; [done|]. cbn [Nat.iter nat_rect].
    destruct (Hstep _ IHt IHr) as [Ht' Hr']. split; [|exact Hr'].
    eapply Forall_impl; [exact Ht'|].
    intros e He. cbn beta in He. unfold isText. by eexists. }
  intros n. apply Hall.
Qed.

Lemma plain_elements_stay_plain_witness :
  Forall isText (tagged (setTagged [applyButton] englishVisit))
  ∧ Forall (fun e => isRawTextHost (tagName e) = false)
      (tagged (setTagged [applyButton] englishVisit))
  ∧ Forall isText
      (tagged (Nat.iter 3 toggle (setTagged [applyButton] englishVisit))).
Proof.
  assert (H : Forall isText (tagged (setTagged [applyButton] englishVisit))).
  { constructor; [|constructor]. by eexists. }
  assert (Hr : Forall (fun e => isRawTextHost (tagName e) = false)
                 (tagged (setTagged [applyButton] englishVisit))).
  { constructor; [reflexivity | constructor]. }
  split; [exact H|]. split; [exact Hr|].
  exact (proj2 (plain_elements_stay_plain
                  (setTagged [applyButton] englishVisit) H Hr) 3%nat).
Defined.

(** X28.  In a raw-text host the text written through [textContent] is
    read back by [innerHTML] as it is: when the text of such an element
    contains the opening tag of the highlight wrapper, the next rewrite
    takes the element for highlighted markup and assigns the payload
    through [innerHTML]. *)
Theorem raw_text_host_read_as_markup (l : Language) (e : Tagged)
    (s : jsstring) :
  isRawTextHost (tagName e) = true ->
  content e = Text s ->
  includes highlightOpen s = true ->
  innerHTML e = s
  ∧ content (rewriteElement l e) = Markup (wrapped l e).
Proof.
  intros Hraw Hc Hs.
  assert (Hv : isVoidHost (tagName e) = false).
  { unfold isRawTextHost in Hraw. apply bool_decide_eq_true in Hraw.
    unfold rawTextHosts in Hraw.
    repeat (apply elem_of_cons in Hraw as [->|Hraw]; [reflexivity|]).
    by apply not_elem_of_nil in Hraw. }
  assert (Hi : innerHTML e = s)
    by (unfold innerHTML; by rewrite Hv, Hc, Hraw).
  split; [exact Hi|].
  by rewrite rewriteElement_eq, Hi, Hs.
Qed.

Lemma raw_text_host_read_as_markup_witness :
  isRawTextHost (tagName sampleListing) = true
  ∧ content sampleListing = Text (dataEn sampleListing)
  ∧ includes highlightOpen (dataEn sampleListing) = true
  ∧ content (rewriteElement Hi sampleListing)
    = Markup (dataHi sampleListing).
Proof.
  split; [reflexivity|]. split; [reflexivity|]. split; [reflexivity|].
  exact (proj2 (raw_text_host_read_as_markup Hi sampleListing
                  (dataEn sampleListing) eq_refl eq_refl eq_refl)).
Defined.

Lemma replace_absent p r (s : jsstring) :
  includes p s = false -> replace p r s = s.
Proof.
  induction s as [|c s IH]; cbn [includes replace]; intros H;
    apply orb_false_iff in H as [Hs Hi]; rewrite Hs; [done|].
  by rewrite IH.
Qed.

(** X19.  The highlight wrapper can be lost for good: when [innerHTML]
    reads the wrapper from an element that is not a raw-text host, but
    the payload for the target language does not contain the emphasised
    phrase and, once assigned as markup, is read back without the
    wrapper's opening tag, the rewrite leaves the bare payload as
    markup, and every later rewrite, to either language, writes plain
    text. *)
Theorem highlight_lost_for_good (l : Language) (e : Tagged) :
  isRawTextHost (tagName e) = false ->
  includes highlightOpen (innerHTML e) = true ->
  includes (phrase l) (payload l e) = false ->
  includes highlightOpen (innerHTML (setContent (Markup (payload l e)) e))
  = false ->
  content (rewriteElement l e) = Markup (payload l e)
  ∧ ∀ l' l'',
      content (rewriteElement l' (rewriteElement l e)) = Text (payload l' e)
      ∧ content (rewriteElement l''
                   (rewriteElement l' (rewriteElement l e)))
        = Text (payload l'' e).
Proof.
  intros Hraw Hh Hp Ho.
  assert (H1 : rewriteElement l e = setContent (Markup (payload l e)) e).
  { rewrite rewriteElement_eq, Hh. by rewrite (replace_absent _ _ _ Hp). }
  assert (H2 : ∀ l', rewriteElement l' (rewriteElement l e)
                     = setContent (Text (payload l' e)) e).
  { intros l'. rewrite H1, rewriteElement_eq, Ho.
    destruct e as [tg en hi c o rp]; by destruct l'. }
  split; [by rewrite H1|]. intros l' l''. split; [by rewrite H2|].
  rewrite H2, rewriteElement_eq.
  rewrite (Text_no_highlight _ (payload l' e)); [|done|exact Hraw].
  destruct e as [tg en hi c o rp]; by destruct l''.
Qed.

Lemma highlight_lost_for_good_witness :
  isRawTextHost (tagName looseHeadline) = false
  ∧ includes highlightOpen (innerHTML looseHeadline) = true
  ∧ includes (phrase Hi) (payload Hi looseHeadline) = false
  ∧ includes highlightOpen
      (innerHTML (setContent (Markup (payload Hi looseHeadline))
                    looseHeadline)) = false
  ∧ content (rewriteElement En (rewriteElement Hi looseHeadline))
    = Text (lit "Job ready in 2 Days").
Proof.
  split; [reflexivity|]. split; [reflexivity|]. split; [reflexivity|].
  split; [reflexivity|].
  exact (proj1 (proj2 (highlight_lost_for_good Hi looseHeadline
                         eq_refl eq_refl eq_refl eq_refl) En En)).
Defined.

(** X20.  After [n] toggles [currentLanguage] is the original language
    when [n] is even and the other one when [n] is odd, and exactly [n]
    writes to storage have been made. *)
Theorem toggle_parity (n : nat) (pg : Page) :
  currentLanguage (Nat.iter n toggle pg)
  = (if Nat.even n then currentLanguage pg else other (currentLanguage pg))
  ∧ length (setItemCalls (Nat.iter n toggle pg))
    = (length (setItemCalls pg) + n)%nat.
Proof.
  induction n as [|n [IHc IHs]]; [cbn; split; [done | lia]|].
  cbn [Nat.iter nat_rect].
  destruct (toggle_fields (Nat.iter n toggle pg)) as (Hc & _).
  destruct (toggle_records (Nat.iter n toggle pg)) as (_ & Hi & _).
  cbn zeta in *. unfold Nat.iter in *. rewrite Hc, Hi, IHc, length_app, IHs.
  split; [|cbn; lia].
  rewrite Nat.even_succ, <- Nat.negb_even.
  destruct (Nat.even n), (currentLanguage pg); done.
Qed.

End LanguageExtras.

(** ** Rate limiting *)

Section TimingExtras.
Context {A : Type}.

Lemma firings_cons {X} (e : Timing.Event X) es :
  Timing.firings (e :: es)
  = ((if Timing.isFiring e then 1 else 0) + Timing.firings es)%nat.
Proof.
  unfold Timing.firings. rewrite filter_cons.
  destruct (Timing.isFiring e); [by rewrite decide_True | by rewrite decide_False].
Qed.

Lemma Invocation_nested_ind (P : Timing.Invocation A -> Prop) :
  (∀ args nested throws,
     Forall P nested -> P (Timing.Invoke args nested throws)) ->
  ∀ c, P c.
Proof.
  intros H. fix IH 1. intros [args nested throws]. apply H.
  induction nested as [|c nested IHn]; constructor; [apply IH | exact IHn].
Qed.

Lemma invoke_plain (c : Timing.Invocation A) (s : Timing.Throttled A) :
  Timing.plain c = true ->
  ∃ a,
    Timing.received c = [a]
    ∧ Timing.invoke c s
      = if Timing.inThrottle s then s
        else Timing.mkThrottled true (S (Timing.resets s))
               (Timing.applied s ++ [a]).
Proof.
  destruct c as [a [|c nested] []]; try discriminate. intros _.
  exists a. split; [done|]. cbn. by destruct (Timing.inThrottle s).
Qed.

(** While a throttled function runs on calls during which [func]
    returns without calling it, there is a reset timer pending exactly
    when [inThrottle] is set, and the applications of [func] are
    covered by the timers that fired plus the one pending. *)
Lemma throttle_invariant (es : list (Timing.Event (Timing.Invocation A))) :
  (∀ c, Timing.Call c ∈ es -> Timing.plain c = true) ->
  ∀ (s : Timing.Throttled A) (k : nat),
    Timing.resets s = (if Timing.inThrottle s then 1 else 0)%nat ->
    (length (Timing.applied s) ≤ k + Timing.resets s)%nat ->
    let s' := fold_left Timing.throttleStep es s in
    Timing.resets s' = (if Timing.inThrottle s' then 1 else 0)%nat
    ∧ (length (Timing.applied s') ≤ k + Timing.firings es + Timing.resets s')%nat.
Proof.
  induction es as [|e es IH]; intros Hplain [b r ap] k Hr Hl; cbn zeta;
    cbn [Timing.resets Timing.inThrottle Timing.applied] in Hr, Hl.
  - cbn. split; [done | lia].
  - assert (Hrest : ∀ c, Timing.Call c ∈ es -> Timing.plain c = true)
      by (intros c Hc; apply Hplain; by apply list_elem_of_further).
    specialize (IH Hrest).
    cbn [fold_left]. rewrite firings_cons.
    destruct e as [c|]; cbn [Timing.isFiring Timing.throttleStep].
    + destruct (invoke_plain c (Timing.mkThrottled b r ap)) as (a & _ & ->).
      { apply Hplain, list_elem_of_here. }
      cbn [Timing.resets Timing.inThrottle Timing.applied].
      destruct b.
      * destruct (IH (Timing.mkThrottled true r ap) k Hr Hl) as [H1 H2].
        cbn zeta in *. split; [done | lia].
      * destruct (IH (Timing.mkThrottled true (S r) (ap ++ [a])) k)
          as [H1 H2].
        { cbn. lia. }
        { cbn. rewrite length_app. cbn. lia. }
        cbn zeta in *. split; [done | lia].
    + cbn [Timing.resets Timing.inThrottle Timing.applied].
      destruct r as [|n].
      * destruct (IH (Timing.mkThrottled b 0 ap) (S k)) as [H1 H2];
          [done | cbn; lia |].
        cbn zeta in *. split; [done | lia].
      * destruct b; [|discriminate Hr]. injection Hr as ->.
        destruct (IH (Timing.mkThrottled false 0 ap) (S k)) as [H1 H2];
          [done | cbn; lia |].
        cbn zeta in *. split; [done | lia].
Qed.

(** X21.  As long as [func] returns from every application without
    throwing and without calling the throttled function itself, a
    throttled function applies [func] at most once more than its reset
    timer has fired, however many calls are made, and it never has more
    than one reset timer pending. *)
Theorem throttle_rate_bound (es : list (Timing.Event (Timing.Invocation A))) :
  (∀ c, Timing.Call c ∈ es -> Timing.plain c = true) ->
  let s := fold_left Timing.throttleStep es Timing.throttleInit in
  (length (Timing.applied s) ≤ S (Timing.firings es))%nat
  ∧ (Timing.resets s ≤ 1)%nat.
Proof.
  intros Hplain. cbn zeta.
  destruct (throttle_invariant es Hplain Timing.throttleInit 0) as [H1 H2];
    [done | cbn; lia |].
  cbn zeta in *.
  destruct (Timing.inThrottle (fold_left Timing.throttleStep es _)); lia.
Qed.

(** X29.  The flag is set only once [func] has returned.  When [func]
    throws, the next call is applied at once although no timer has
    fired; when [func] calls the throttled function while it runs, the
    inner call is applied too and two reset timers are pending
    afterwards. *)
Theorem throttle_unguarded_while_running (a b : A) :
  let threw :=
    fold_left Timing.throttleStep
      [Timing.Call (Timing.Invoke a [] true);
       Timing.Call (Timing.Invoke b [] false)] Timing.throttleInit in
  let reentered :=
    Timing.throttleStep Timing.throttleInit
      (Timing.Call (Timing.Invoke a [Timing.Invoke b [] false] false)) in
  Timing.applied threw = [a; b]
  ∧ Timing.applied reentered = [a; b]
  ∧ Timing.resets reentered = 2%nat.
Proof. done. Qed.

(** Whatever [func] does, an invocation passes on a selection, in order,
    of the calls received during it. *)
Lemma invoke_sublist (c : Timing.Invocation A) :
  ∀ s, ∃ passed,
    Timing.applied (Timing.invoke c s) = Timing.applied s ++ passed
    ∧ passed `sublist_of` Timing.received c.
Proof.
  induction c as [a nested throws IH] using Invocation_nested_ind.
  intros s. cbn [Timing.invoke Timing.received].
  destruct (Timing.inThrottle s); cbn [negb].
  { exists []. rewrite app_nil_r. split; [done | apply sublist_nil_l]. }
  assert (Hfold : ∀ s0, ∃ passed,
            Timing.applied
              (fold_left (fun acc c' => Timing.invoke c' acc) nested s0)
            = Timing.applied s0 ++ passed
            ∧ passed `sublist_of` flat_map Timing.received nested).
  { clear s. induction nested as [|c nested IHn]; intros s0.
    - exists []. by rewrite app_nil_r.
    - apply Forall_cons in IH as [Hc Hn]. cbn [fold_left flat_map].
      destruct (IHn Hn (Timing.invoke c s0)) as (p2 & -> & Hp2).
      destruct (Hc s0) as (p1 & -> & Hp1).
      exists (p1 ++ p2). rewrite <- app_assoc. split; [done|].
      by apply sublist_app. }
  destruct (Hfold (Timing.mkThrottled false (Timing.resets s)
                     (Timing.applied s ++ [a]))) as (p & Hp & Hsub).
  cbn [Timing.applied] in Hp.
  exists (a :: p). split; [|by apply sublist_skip].
  destruct throws; cbn [Timing.applied]; rewrite Hp;
    by rewrite <- app_assoc.
Qed.

Lemma throttle_sublist (es : list (Timing.Event (Timing.Invocation A))) :
  ∀ s, ∃ passed,
    Timing.applied (fold_left Timing.throttleStep es s)
    = Timing.applied s ++ passed
    ∧ passed `sublist_of` flat_map Timing.received (Timing.callArgs es).
Proof.
  induction es as [|e es IH]; intros s.
  - exists []. by rewrite app_nil_r.
  - cbn [fold_left]. destruct (IH (Timing.throttleStep s e)) as (p & -> & Hp).
    destruct e as [c|]; cbn [Timing.throttleStep].
    + change (Timing.callArgs (Timing.Call c :: es))
        with (c :: Timing.callArgs es).
      cbn [flat_map].
      destruct (invoke_sublist c s) as (p1 & -> & Hp1).
      exists (p1 ++ p). rewrite <- app_assoc. split; [done|].
      by apply sublist_app.
    + change (Timing.callArgs (Timing.TimerFires :: es))
        with (Timing.callArgs es).
      exists p. split; [|done]. by destruct (Timing.resets s).
Qed.

(** X22.  A throttled function passes on the first call at once, and
    what it passes on is always a selection, in order, of the calls it
    received, those [func] makes while it runs included: calls made
    while throttled are dropped, not postponed. *)
Theorem throttle_passes_selection (a : A)
    (nested : list (Timing.Invocation A)) (throws : bool)
    (es : list (Timing.Event (Timing.Invocation A))) :
  ∃ passed,
    Timing.applied
      (fold_left Timing.throttleStep
         (Timing.Call (Timing.Invoke a nested throws) :: es)
         Timing.throttleInit)
    = a :: passed
    ∧ passed
      `sublist_of` flat_map Timing.received nested
                   ++ flat_map Timing.received (Timing.callArgs es).
Proof.
  cbn [fold_left].
  destruct (throttle_sublist es
              (Timing.throttleStep Timing.throttleInit
                 (Timing.Call (Timing.Invoke a nested throws))))
    as (p2 & -> & Hp2).
  cbn [Timing.throttleStep].
  pose proof (invoke_sublist (Timing.Invoke a nested throws)
                Timing.throttleInit) as (p1 & Hp1 & Hs1).
  rewrite Hp1. cbn [Timing.applied Timing.throttleInit app].
  assert (Hhead : ∃ q, p1 = a :: q
                       ∧ q `sublist_of` flat_map Timing.received nested).
  { clear Hp2. cbn [Timing.invoke Timing.throttleInit Timing.inThrottle negb
                    Timing.resets Timing.applied app] in Hp1.
    pose proof (throttle_sublist (map Timing.Call nested)
                  (Timing.mkThrottled false 0 [a])) as (q & Hq & Hqs).
    assert (Hfold : ∀ (l : list (Timing.Invocation A)) s0,
              fold_left Timing.throttleStep (map Timing.Call l) s0
              = fold_left (fun acc c' => Timing.invoke c' acc) l s0).
    { induction l as [|c l IHl]; intros s0; [done|]. cbn. apply IHl. }
    assert (Hargs : ∀ l : list (Timing.Invocation A),
              Timing.callArgs (map Timing.Call l) = l).
    { induction l as [|c l IHl]; [done|].
      change (Timing.callArgs (map Timing.Call (c :: l)))
        with (c :: Timing.callArgs (map Timing.Call l)).
      by rewrite IHl. }
    rewrite Hfold in Hq. rewrite Hargs in Hqs. cbn [Timing.applied] in Hq.
    exists q. split; [|exact Hqs].
    destruct throws; cbn [Timing.applied] in Hp1; rewrite Hq in Hp1;
      by rewrite <- Hp1. }
  destruct Hhead as (q & -> & Hq).
  exists (q ++ p2). split; [done|]. by apply sublist_app.
Qed.

Lemma debounce_burst (args : list A) :
  ∀ s, Timing.called (fold_left Timing.debounceStep (map Timing.Call args) s)
       = Timing.called s
       ∧ Timing.timeout (fold_left Timing.debounceStep (map Timing.Call args) s)
         = match last args with
           | Some a => Some a
           | None => Timing.timeout s
           end.
Proof.
  induction args as [|a args IH]; intros s; [done|].
  cbn [map fold_left]. destruct (IH (Timing.debounceStep s (Timing.Call a)))
    as [-> ->].
  split; [done|]. destruct args as [|b args]; [done|].
  change (last (a :: b :: args)) with (last (b :: args)).
  destruct (last (b :: args)) eqn:E; [done|].
  apply last_None in E. discriminate E.
Qed.

(** X23.  A debounced function applies nothing during a burst of calls;
    when its timer then fires it applies [func] exactly once, to the
    arguments of the last call of the burst, and a further firing applies
    nothing. *)
Theorem debounce_applies_last_call
    (s : Timing.Debounced A) (args : list A) (a : A) :
  let burst := map Timing.Call (args ++ [a]) in
  let waiting := fold_left Timing.debounceStep burst s in
  let fired := Timing.debounceStep waiting Timing.TimerFires in
  Timing.called waiting = Timing.called s
  ∧ Timing.called fired = Timing.called s ++ [a]
  ∧ Timing.debounceStep fired Timing.TimerFires = fired.
Proof.
  cbn zeta. destruct (debounce_burst (args ++ [a]) s) as [Hc Ht].
  rewrite last_snoc in Ht.
  split; [exact Hc|].
  set (w := fold_left Timing.debounceStep _ s) in *.
  assert (Hf : Timing.debounceStep w Timing.TimerFires
               = Timing.mkDebounced None (Timing.called s ++ [a]))
    by (cbn [Timing.debounceStep]; by rewrite Ht, Hc).
  rewrite Hf. done.
Qed.

End TimingExtras.

Lemma throttle_rate_bound_witness :
  (∀ c : Timing.Invocation nat,
     Timing.Call c
     ∈ [Timing.Call (Timing.Invoke 1%nat [] false);
        Timing.Call (Timing.Invoke 2%nat [] false);
        Timing.TimerFires;
        Timing.Call (Timing.Invoke 3%nat [] false)] ->
     Timing.plain c = true)
  ∧ (length
       (Timing.applied
          (fold_left Timing.throttleStep
             [Timing.Call (Timing.Invoke 1%nat [] false);
              Timing.Call (Timing.Invoke 2%nat [] false);
              Timing.TimerFires;
              Timing.Call (Timing.Invoke 3%nat [] false)]
             Timing.throttleInit)) ≤ 2)%nat.
Proof.
  assert (H : ∀ c : Timing.Invocation nat,
            Timing.Call c
            ∈ [Timing.Call (Timing.Invoke 1%nat [] false);
               Timing.Call (Timing.Invoke 2%nat [] false);
               Timing.TimerFires;
               Timing.Call (Timing.Invoke 3%nat [] false)] ->
            Timing.plain c = true).
  { intros c Hc.
    repeat (apply elem_of_cons in Hc as [Hc|Hc];
            [first [by injection Hc as -> | discriminate Hc]|]).
    by apply not_elem_of_nil in Hc. }
  split; [exact H|].
  exact (proj1 (throttle_rate_bound _ H)).
Defined.

(** ** The header's scroll classes *)

Section HeaderExtras.

Lemma NotBoth_removed_both cl :
  NotBoth (tokensRemove [lit "scroll-up"; lit "scroll-down"] cl).
Proof.
  intros [H _]. revert H. apply tokensRemove_not_elem. set_solver.
Qed.

(** X24.  The header never carries both scroll classes: a header that
    does not have both keeps that through any sequence of scroll
    events. *)
Theorem header_never_both (offsets : list QArith_base.Q) (h : Header.State) :
  NotBoth (Header.classList h) ->
  NotBoth (Header.classList
             (fold_left (fun h c => Header.handleScroll c h) offsets h)).
Proof.
  revert h. induction offsets as [|c offsets IH]; intros h Hh; [done|].
  cbn [fold_left]. apply IH. unfold Header.handleScroll.
  destruct (QArith_base.Qle_bool c Header.zero);
    cbn [Header.classList]; [apply NotBoth_removed_both|].
  destruct (Header.gtb c (Header.lastScroll h)
            && negb (Header.contains (lit "scroll-down") (Header.classList h))).
  - intros [Hu _]. apply elem_of_tokensAdd in Hu as [Hu|Hu];
      [discriminate Hu|].
    revert Hu. apply tokensRemove_not_elem. set_solver.
  - destruct (Header.ltb c (Header.lastScroll h)
              && Header.contains (lit "scroll-down") (Header.classList h));
      [|done].
    intros [_ Hd]. apply elem_of_tokensAdd in Hd as [Hd|Hd];
      [discriminate Hd|].
    revert Hd. apply tokensRemove_not_elem. set_solver.
Qed.

Lemma header_never_both_witness :
  NotBoth (Header.classList (Header.mkState Header.zero [lit "header"]))
  ∧ NotBoth
      (Header.classList
         (fold_left (fun h c => Header.handleScroll c h)
            [QArith_base.Qmake 120 1; QArith_base.Qmake 40 1]
            (Header.mkState Header.zero [lit "header"]))).
Proof.
  assert (H : NotBoth (Header.classList
                         (Header.mkState Header.zero [lit "header"]))).
  { intros [H _]. apply list_elem_of_singleton in H. discriminate H. }
  split; [exact H|].
  exact (header_never_both
           [QArith_base.Qmake 120 1; QArith_base.Qmake 40 1]
           (Header.mkState Header.zero [lit "header"]) H).
Defined.

(** X25.  At the top of the page both scroll classes are removed and the
    remembered offset is left as it was; and away from the top the
    handler adds [scroll-up] only to a header that carried
    [scroll-down], on a scroll towards the top. *)
Theorem header_at_top_and_scroll_up (c : QArith_base.Q) (h : Header.State) :
  (QArith_base.Qle_bool c Header.zero = true ->
   Header.lastScroll (Header.handleScroll c h) = Header.lastScroll h
   ∧ (lit "scroll-up" ∉ Header.classList (Header.handleScroll c h))
   ∧ (lit "scroll-down" ∉ Header.classList (Header.handleScroll c h)))
  ∧ ((lit "scroll-up" ∉ Header.classList h) ->
     lit "scroll-up" ∈ Header.classList (Header.handleScroll c h) ->
     lit "scroll-down" ∈ Header.classList h
     ∧ Header.ltb c (Header.lastScroll h) = true
     ∧ (lit "scroll-down" ∉ Header.classList (Header.handleScroll c h))).
Proof.
  unfold Header.handleScroll. split.
  - intros ->. cbn [Header.lastScroll Header.classList].
    split; [done|]. split; apply tokensRemove_not_elem; set_solver.
  - intros Hn Hin. destruct (QArith_base.Qle_bool c Header.zero).
    { cbn [Header.classList] in Hin.
      apply elem_of_tokensRemove in Hin as [_ Hin]. done. }
    cbn [Header.classList] in *.
    destruct (Header.gtb c (Header.lastScroll h)
              && negb (Header.contains (lit "scroll-down")
                         (Header.classList h))).
    { apply elem_of_tokensAdd in Hin as [Hin|Hin]; [discriminate Hin|].
      apply elem_of_tokensRemove in Hin as [_ Hin]. done. }
    destruct (Header.ltb c (Header.lastScroll h)) eqn:Hlt; [|done].
    destruct (Header.contains (lit "scroll-down") (Header.classList h)) eqn:Hc;
      [|done].
    cbn [andb] in *. apply bool_decide_eq_true in Hc.
    split; [done|]. split; [done|].
    intros Hd. apply elem_of_tokensAdd in Hd as [Hd|Hd]; [discriminate Hd|].
    revert Hd. apply tokensRemove_not_elem. set_solver.
Qed.

Lemma header_at_top_and_scroll_up_witness :
  QArith_base.Qle_bool Header.zero Header.zero = true
  ∧ Header.lastScroll
      (Header.handleScroll Header.zero
         (Header.mkState (QArith_base.Qmake 120 1) [lit "scroll-down"]))
    = QArith_base.Qmake 120 1.
Proof.
  split; [reflexivity|].
  exact (proj1 (proj1 (header_at_top_and_scroll_up Header.zero
                         (Header.mkState (QArith_base.Qmake 120 1)
                            [lit "scroll-down"])) eq_refl)).
Defined.

End HeaderExtras.
